(** * NoSpecs reading aid: the audio pipeline and the safety fallback

    A shallow embedding of [src/services/geminiService.ts] (PCM decoding,
    speech synthesis client, keyword fallback of [processImage]) and of the
    audio part of [src/components/TextDisplay.tsx] (cache, playback
    controller, output context lifecycle), with the properties stated in
    the system specification; then of the rest of the Gemini client (key
    lookup, translation, image requests), of the shell in [src/App.tsx] and
    of the sign-in of [src/services/persistenceService.ts], with further
    properties of the code. *)

From Stdlib Require Import ZArith QArith Qround Lia Ascii.
From stdpp Require Import gmap strings list.

Local Open Scope nat_scope.

(** ** JavaScript values used by the services *)

(** Exceptions.  Only the name and, for [Error], the message are looked
    at by the program; the message text of exceptions raised by the
    platform is implementation-defined and left empty. *)
Inductive error_name :=
  | RangeError | NotSupportedError | InvalidCharacterError
  | SyntaxError | TypeError | Error.

Record error := mkError { name : error_name; message : string }.

(** The outcome of a call that may throw, or of a promise once settled. *)
Inductive result (A : Type) :=
  | Ok (a : A)
  | Err (e : error).
Arguments Ok {A} a.
Arguments Err {A} e.

#[global] Instance result_ret : MRet result := fun _ a => Ok a.
#[global] Instance result_bind : MBind result := fun _ _ k r =>
  match r with
  | Ok a => k a
  | Err e => Err e
  end.

(** [try { body } catch (e) { handler e }] *)
Definition try_catch {A} (body : result A) (handler : error → result A) : result A :=
  match body with
  | Ok a => Ok a
  | Err e => handler e
  end.

Definition throw {A} (n : error_name) (msg : string) : result A :=
  Err (mkError n msg).

(** [try { body } finally { await fin }]: the body's outcome, unless the
    [finally] block fails, and then that failure. *)
Definition try_finally {A} (body : result A) (fin : result unit) : result A :=
  match fin with
  | Ok _ => body
  | Err e => Err e
  end.

(** A [Float32Array] element.  The only numbers the decoder stores are
    0 and quotients [v / 32768] of a 16-bit integer, all of which are
    exactly representable in single precision, so a finite value is kept as
    the rational it denotes. *)
Inductive float :=
  | Fin (q : Q)
  | NaN.

(** ** PCM decoder ([decodeAudioData], geminiService.ts) *)

Module Pcm.

(** The signed value of a little-endian pair of bytes, as an
    [Int16Array] over the buffer reads it (typed arrays use the byte order
    of the machine, little-endian wherever browsers run). *)
Definition int16_le (lo hi : Byte.byte) : Z :=
  let u := (Z.of_N (Byte.to_N lo) + 256 * Z.of_N (Byte.to_N hi))%Z in
  if (u <? 32768)%Z then u else (u - 65536)%Z.

Fixpoint int16_view (buffer : list Byte.byte) : list Z :=
  match buffer with
  | lo :: hi :: rest => int16_le lo hi :: int16_view rest
  | _ => []
  end.

(** [new Int16Array(buffer)]: a [RangeError] unless the byte length of the
    buffer is a multiple of the element size. *)
Definition Int16Array (buffer : list Byte.byte) : result (list Z) :=
  if Nat.even (length buffer) then Ok (int16_view buffer)
  else throw RangeError "".

Record AudioBuffer := mkAudioBuffer {
  numberOfChannels : nat;
  frames : nat;                      (* the [length] attribute *)
  sampleRate : Z;
  channelData : list (list float);
}.

Section Platform.

(** The channel counts and sample rates for which the browser is willing to
    create a buffer.  The Web Audio specification requires at least 1..32
    channels and 8000..96000 Hz; the actual ranges are up to the browser. *)
Variable supports : nat → Z → bool.

(** [ctx.createBuffer(numberOfChannels, length, sampleRate)].  The length
    is converted to an unsigned integer by truncation; a zero channel
    count, a zero length or an unsupported channel count or rate is a
    [NotSupportedError].  The new buffer is silent. *)
Definition createBuffer (numChannels : nat) (len : Q) (rate : Z) : result AudioBuffer :=
  let n := Z.to_nat (Qfloor len) in
  if (numChannels =? 0) || (n =? 0) || negb (supports numChannels rate)
  then throw NotSupportedError ""
  else Ok (mkAudioBuffer numChannels n rate
             (replicate numChannels (replicate n (Fin 0)))).

(** [dataInt16[k] / 32768.0]; reading past the end of a typed array gives
    [undefined], and [undefined / 32768.0] is NaN. *)
Definition sample (dataInt16 : list Z) (k : nat) : float :=
  match dataInt16 !! k with
  | Some v => Fin (inject_Z v / 32768)
  | None => NaN
  end.

(** The inner loop, [for (i = 0; i < frameCount; i++) channelData[i] = ...].
    The integers below [frameCount] are [0 .. ceil frameCount - 1]; a store
    past the end of a [Float32Array] is ignored, as list insertion is. *)
Definition fill_channel (dataInt16 : list Z) (numChannels : nat) (frameCount : Q)
    (channel : nat) (data : list float) : list float :=
  foldl (fun d i => <[i := sample dataInt16 (i * numChannels + channel)]> d)
        data (seq 0 (Z.to_nat (Qceiling frameCount))).

(** The outer loop over the channels; [getChannelData] hands out the
    buffer's own array, so the stores land in the buffer. *)
Definition fill_buffer (dataInt16 : list Z) (numChannels : nat) (frameCount : Q)
    (buffer : AudioBuffer) : AudioBuffer :=
  mkAudioBuffer (numberOfChannels buffer) (frames buffer) (sampleRate buffer)
    (foldl (fun chans channel =>
              match chans !! channel with
              | Some d => <[channel := fill_channel dataInt16 numChannels frameCount channel d]> chans
              | None => chans
              end)
           (channelData buffer) (seq 0 numChannels)).

(** [decodeAudioData(data, ctx, sampleRate, numChannels)].  [data] is taken
    to span its whole [ArrayBuffer], as the array built by [decode] does.
    [frameCount] is the real quotient: for [numChannels = 0] JavaScript
    yields Infinity or NaN where [Qdiv] yields 0, and [createBuffer] rejects
    the call on the channel count in either case. *)
Definition decodeAudioData (data : list Byte.byte) (rate : Z) (numChannels : nat)
    : result AudioBuffer :=
  dataInt16 ← Int16Array data;
  let frameCount := (inject_Z (Z.of_nat (length dataInt16))
                     / inject_Z (Z.of_nat numChannels))%Q in
  buffer ← createBuffer numChannels frameCount rate;
  Ok (fill_buffer dataInt16 numChannels frameCount buffer).

End Platform.

(** A browser that accepts exactly the ranges the Web Audio specification
    obliges it to accept. *)
Definition required_ranges (c : nat) (r : Z) : bool :=
  (c <=? 32) && (8000 <=? r)%Z && (r <=? 96000)%Z.

End Pcm.

(** ** Gemini client ([geminiService.ts]) *)

Module Gemini.
Import Pcm.

(** *** Types ([types.ts], and the part of the SDK response that is read) *)

Inductive ColorScheme := DEFAULT | HIGH_CONTRAST | INVERTED | BLUE_YELLOW.

Record UserSettings := mkSettings {
  diopters : Q;
  fontSize : Q;
  colorScheme : ColorScheme;
  targetLanguage : string;
  autoRead : bool;
}.

Record ProcessedContent := mkContent {
  originalText : string;
  simplifiedText : string;
  translatedText : string;
  language : string;
  confidence : Q;
  requiresAudit : bool;
}.

Record Blob := mkBlob { data : option string }.
Record Part := mkPart { inlineData : option Blob }.
Record Content := mkParts { parts : option (list Part) }.
Record Candidate := mkCandidate { content : option Content }.
Record GenerateContentResponse := mkResponse {
  candidates : option (list Candidate);
  text : option string;
}.

Record Request := mkRequest {
  model : string;
  image : option string;             (* inline image data, if any *)
  prompt : string;
}.

(** What the surroundings of one call decide: the configured API key, the
    answer of the provider to a request, whether the browser grants one
    more audio context and whether closing it goes through, and the text
    the engine gives the [TypeError] of a method call on [null]. *)
Record Env := mkEnv {
  API_KEY : string;
  generateContent : Request → result GenerateContentResponse;
  newAudioContext : result unit;
  closeAudioContext : result unit;
  nullMessage : string;
}.

(** *** [atob] and [decode] *)

Definition is_ascii_whitespace (c : ascii) : bool :=
  let n := N_of_ascii c in
  ((n =? 9) || (n =? 10) || (n =? 12) || (n =? 13) || (n =? 32))%N.

Definition base64_value (c : ascii) : option N :=
  let n := N_of_ascii c in
  if ((65 <=? n) && (n <=? 90))%N then Some (n - 65)%N
  else if ((97 <=? n) && (n <=? 122))%N then Some (n - 71)%N
  else if ((48 <=? n) && (n <=? 57))%N then Some (n + 4)%N
  else if (n =? 43)%N then Some 62%N
  else if (n =? 47)%N then Some 63%N
  else None.

Definition strip_padding (l : list ascii) : list ascii :=
  if length l mod 4 =? 0 then
    match reverse l with
    | "="%char :: "="%char :: r => reverse r
    | "="%char :: r => reverse r
    | _ => l
    end
  else l.

Definition char_of_N (n : N) : ascii := ascii_of_N (n mod 256).

Fixpoint sextets_to_chars (l : list N) : list ascii :=
  match l with
  | a :: b :: c :: d :: rest =>
      let n := (a * 262144 + b * 4096 + c * 64 + d)%N in
      char_of_N (n / 65536) :: char_of_N (n / 256) :: char_of_N n
        :: sextets_to_chars rest
  | [a; b; c] =>
      let n := ((a * 4096 + b * 64 + c) / 4)%N in
      [char_of_N (n / 256); char_of_N n]
  | [a; b] => [char_of_N ((a * 64 + b) / 16)]
  | _ => []
  end.

(** [atob], the forgiving base64 decoder of the HTML standard: whitespace
    is dropped, padding is removed from a string whose length is a multiple
    of four, a length of 1 modulo 4 or a character outside the alphabet
    is an [InvalidCharacterError], and left-over bits are discarded. *)
Definition atob (base64 : string) : result string :=
  let l := strip_padding (filter (fun c => is_ascii_whitespace c = false)
                                 (String.list_ascii_of_string base64)) in
  if length l mod 4 =? 1 then throw InvalidCharacterError ""
  else match mapM base64_value l with
       | Some sextets => Ok (String.string_of_list_ascii (sextets_to_chars sextets))
       | None => throw InvalidCharacterError ""
       end.

(** [decode]: the char codes of the binary string, copied into a
    [Uint8Array]. *)
Definition decode (base64 : string) : result (list Byte.byte) :=
  binaryString ← atob base64;
  Ok (byte_of_ascii <$> String.list_ascii_of_string binaryString).

(** *** [getAI] *)

Definition getAI (env : Env) : result unit :=
  if bool_decide (API_KEY env = "")
  then throw Error "Configuration Error: API Key is missing. Please check settings."
  else Ok tt.

(** *** [generateSpeech] *)

(** [response.candidates?.[0]?.content?.parts?.[0]?.inlineData?.data] *)
Definition inline_audio (response : GenerateContentResponse) : option string :=
  cs ← candidates response; c ← head cs; ct ← content c;
  ps ← parts ct; p ← head ps; blob ← inlineData p; data blob.

Section Platform.
Variable supports : nat → Z → bool.

(** The [language] argument is not used: the request carries the text and
    the fixed voice only.  The decode-only context is closed in a [finally]
    block inside the outer [try]: when [close()] rejects, the buffer that
    was decoded is lost to the [catch]. *)
Definition generateSpeech (env : Env) (text language : string) : result AudioBuffer :=
  try_catch
    (_ ← getAI env;
     response ← generateContent env
                  (mkRequest "gemini-2.5-flash-preview-tts" None text);
     let base64Audio := inline_audio response in
     match base64Audio with
     | None | Some "" => throw Error "No audio data returned"
     | Some base64Audio =>
         _ ← newAudioContext env;
         try_finally
           (bytes ← decode base64Audio;
            decodeAudioData supports bytes 24000 1)
           (closeAudioContext env)
     end)
    (fun _ => throw Error "Failed to generate speech.").

End Platform.

(** *** [translateText] *)

Definition nl : string := String "010" "".

Definition translateText (env : Env) (text targetLanguage : string) : result string :=
  try_catch
    (_ ← getAI env;
     response ← generateContent env
                  (mkRequest "gemini-2.5-flash" None
                     ("Translate the following text into " +:+ targetLanguage
                      +:+ ". Return ONLY the translated text, no explanations."
                      +:+ nl +:+ nl +:+ "Text: " +:+ text));
     Ok (default "" (Gemini.text response)))
    (fun _ => throw Error "Translation failed").

(** *** [processImage] *)

Definition CRITICAL_KEYWORDS : list string :=
  ["dosage"; "medicine"; "warning"; "danger"; "caution"; "prescription";
   "side effects"; "emergency"].

(** [toLowerCase], on the ASCII letters.  Text is kept as a string of
    bytes and a byte outside ASCII is left alone.  JavaScript lowers other
    letters too, but only U+0130 and U+212A lower to something with an ASCII
    letter in it (an i followed by a combining dot, and k), and neither
    completes one of the keywords, so [includes] below answers for them as
    it does in JavaScript. *)
Definition lower_char (c : ascii) : ascii :=
  let n := N_of_ascii c in
  if ((65 <=? n) && (n <=? 90))%N then ascii_of_N (n + 32) else c.

Fixpoint toLowerCase (s : string) : string :=
  match s with
  | EmptyString => EmptyString
  | String c s' => String (lower_char c) (toLowerCase s')
  end.

(** [s.includes(kw)] *)
Fixpoint includes (s kw : string) : bool :=
  String.prefix kw s ||
  match s with
  | EmptyString => false
  | String _ s' => includes s' kw
  end.

(** [base64Image.replace(/^data:image\/(png|jpeg|jpg|webp);base64,/, "")] *)
Definition strip_after (pre s : string) : option string :=
  if String.prefix pre s
  then Some (String.substring (String.length pre) (String.length s - String.length pre) s)
  else None.

Definition clean_base64 (base64Image : string) : string :=
  default base64Image
    (head (omap (fun kind => strip_after ("data:image/" +:+ kind +:+ ";base64,") base64Image)
                ["png"; "jpeg"; "jpg"; "webp"])).

Definition vision_prompt (targetLanguage : string) : string :=
  nl +:+ "    Analyze the text in this image. "
  +:+ nl +:+ "    1. Extract the full text."
  +:+ nl +:+ "    2. Simplify the text to make it easier to understand for someone with low vision or cognitive load (5th grade reading level)."
  +:+ nl +:+ "    3. Translate the simplified text to " +:+ targetLanguage +:+ "."
  +:+ nl +:+ "    4. Determine if this text contains critical safety information (medical instructions, warnings, danger signs)."
  +:+ nl +:+ "    "
  +:+ nl +:+ "    Return ONLY a JSON object."
  +:+ nl +:+ "  ".

Section Json.

(** [JSON.parse(text) as ProcessedContent].  The cast is unchecked in the
    source; an answer that is not JSON, or whose [originalText] is not a
    string, raises at the parse or at [toLowerCase], which is one
    failure here. *)
Variable JSON_parse : string → result ProcessedContent.

(** The parameter is declared a [string], but the file upload hands over
    [reader.result as string], which is [null] after a failed read: [None]
    here.  The header is removed before the [try] block is entered, so the
    [TypeError] of [null.replace] reaches the caller as it is. *)
Definition processImage (env : Env) (base64Image : option string)
    (settings : UserSettings) : result ProcessedContent :=
  match base64Image with
  | None => throw TypeError (nullMessage env)
  | Some base64Image =>
      let cleanBase64 := clean_base64 base64Image in
      try_catch
        (_ ← getAI env;
         response ← generateContent env
                      (mkRequest "gemini-2.5-flash" (Some cleanBase64)
                         (vision_prompt (targetLanguage settings)));
         match Gemini.text response with
         | None | Some "" => throw Error "No text returned from Gemini"
         | Some text =>
             data ← JSON_parse text;
             let isCritical :=
               existsb (fun kw => includes (toLowerCase (originalText data)) kw)
                       CRITICAL_KEYWORDS in
             Ok (if isCritical
                 then mkContent (originalText data) (simplifiedText data)
                        (translatedText data) (language data) (confidence data) true
                 else data)
         end)
        (fun error => throw Error ("Failed to process image. " +:+ message error))
  end.

End Json.

(** *** Notions used in the statements *)

(** The one error [generateSpeech] ever rejects with (the specification's
    SynthesisProviderError). *)
Definition speech_failure : error := mkError Error "Failed to generate speech.".

Definition tts_request (text : string) : Request :=
  mkRequest "gemini-2.5-flash-preview-tts" None text.

(** The answer carries no candidate. *)
Definition no_candidate (response : GenerateContentResponse) : Prop :=
  candidates response = None ∨ candidates response = Some [].

(** The first part of the first candidate carries no inline audio, or an
    empty one. *)
Definition no_inline_audio (response : GenerateContentResponse) : Prop :=
  inline_audio response = None ∨ inline_audio response = Some "".

(** The text has a piece that reads [kw] once lowered. *)
Definition contains_ignoring_case (text kw : string) : Prop :=
  ∃ pre mid post, text = pre +:+ mid +:+ post ∧ toLowerCase mid = kw.

End Gemini.

(** ** Reader view ([TextDisplay.tsx]): cache, playback, output context *)

Module Reader.
Import Pcm Gemini.

Inductive TextType := original | simplified | translated.

#[global] Instance TextType_eq_dec : EqDecision TextType.
Proof. solve_decision. Defined.

Definition type_name (type : TextType) : string :=
  match type with
  | original => "original"
  | simplified => "simplified"
  | translated => "translated"
  end.

Inductive AudioContextState := running | suspended | closed.

#[global] Instance AudioContextState_eq_dec : EqDecision AudioContextState.
Proof. solve_decision. Defined.

Record AudioBufferSourceNode := mkSource {
  source_id : nat;
  source_buffer : AudioBuffer;
}.

(** What the view does to the world outside it, newest first. *)
Inductive effect :=
  | SpeechRequested (text language : string)     (* [generateSpeech] called *)
  | TranslationRequested (text language : string) (* [translateText] called *)
  | ContextCreated                                (* [new AudioContext] *)
  | ContextResumed                                (* [resume()] called *)
  | ContextClosed                                 (* [close()] called *)
  | SourceStarted (id : nat) (type : TextType) (buffer : AudioBuffer)
  | SourceStopped (id : nat)                      (* [stop()] went through *)
  | Alerted (msg : string).

(** A handler suspended at an [await], with the locals it resumes with. *)
Inductive frame :=
  | AwaitSpeech (type : TextType) (cacheKey : string)  (* [handlePlay], line 88 *)
  | AwaitResume (type : TextType) (buffer : AudioBuffer) (* [handlePlay], line 98 *)
  | AwaitTranslate.                                      (* [handleLanguageChange], line 62 *)

(** The hooks of one mounted [TextDisplay] (the audit status, which the
    audio code never touches, is left out), the handlers in flight and the
    effects so far.  A state setter called after the view is gone is
    dropped by React; the fields then only record what was asked for. *)
Record View := mkView {
  activeAudioType : option TextType;
  loadingAudioType : option TextType;
  translatedText : string;
  currentLanguage : string;
  isTranslating : bool;
  audioContextRef : option AudioContextState;
  audioSourceRef : option AudioBufferSourceNode;
  audioCache : gmap string AudioBuffer;
  mounted : bool;
  pending : list frame;
  effects : list effect;
}.

Definition setActiveAudioType (v : option TextType) (s : View) : View :=
  mkView v (loadingAudioType s) (translatedText s) (currentLanguage s)
    (isTranslating s) (audioContextRef s) (audioSourceRef s) (audioCache s)
    (mounted s) (pending s) (effects s).

Definition setLoadingAudioType (v : option TextType) (s : View) : View :=
  mkView (activeAudioType s) v (translatedText s) (currentLanguage s)
    (isTranslating s) (audioContextRef s) (audioSourceRef s) (audioCache s)
    (mounted s) (pending s) (effects s).

Definition setTranslatedText (v : string) (s : View) : View :=
  mkView (activeAudioType s) (loadingAudioType s) v (currentLanguage s)
    (isTranslating s) (audioContextRef s) (audioSourceRef s) (audioCache s)
    (mounted s) (pending s) (effects s).

Definition setCurrentLanguage (v : string) (s : View) : View :=
  mkView (activeAudioType s) (loadingAudioType s) (translatedText s) v
    (isTranslating s) (audioContextRef s) (audioSourceRef s) (audioCache s)
    (mounted s) (pending s) (effects s).

Definition setIsTranslating (v : bool) (s : View) : View :=
  mkView (activeAudioType s) (loadingAudioType s) (translatedText s)
    (currentLanguage s) v (audioContextRef s) (audioSourceRef s) (audioCache s)
    (mounted s) (pending s) (effects s).

Definition set_audioContextRef (v : option AudioContextState) (s : View) : View :=
  mkView (activeAudioType s) (loadingAudioType s) (translatedText s)
    (currentLanguage s) (isTranslating s) v (audioSourceRef s) (audioCache s)
    (mounted s) (pending s) (effects s).

Definition set_audioSourceRef (v : option AudioBufferSourceNode) (s : View) : View :=
  mkView (activeAudioType s) (loadingAudioType s) (translatedText s)
    (currentLanguage s) (isTranslating s) (audioContextRef s) v (audioCache s)
    (mounted s) (pending s) (effects s).

Definition set_audioCache (v : gmap string AudioBuffer) (s : View) : View :=
  mkView (activeAudioType s) (loadingAudioType s) (translatedText s)
    (currentLanguage s) (isTranslating s) (audioContextRef s) (audioSourceRef s) v
    (mounted s) (pending s) (effects s).

Definition set_mounted (v : bool) (s : View) : View :=
  mkView (activeAudioType s) (loadingAudioType s) (translatedText s)
    (currentLanguage s) (isTranslating s) (audioContextRef s) (audioSourceRef s)
    (audioCache s) v (pending s) (effects s).

Definition set_pending (v : list frame) (s : View) : View :=
  mkView (activeAudioType s) (loadingAudioType s) (translatedText s)
    (currentLanguage s) (isTranslating s) (audioContextRef s) (audioSourceRef s)
    (audioCache s) (mounted s) v (effects s).

Definition log (e : effect) (s : View) : View :=
  mkView (activeAudioType s) (loadingAudioType s) (translatedText s)
    (currentLanguage s) (isTranslating s) (audioContextRef s) (audioSourceRef s)
    (audioCache s) (mounted s) (pending s) (e :: effects s).

(** The handler stops at an [await]; it goes on when the promise settles. *)
Definition suspend (f : frame) (s : View) : View :=
  set_pending (pending s ++ [f]) s.

(** What the browser decides during one step: whether [stop()] on the
    current source throws, whether [new AudioContext] succeeds and in
    which state the new context is, whether creating and starting a
    source throws. *)
Record Platform := mkPlatform {
  stop_throws : bool;
  new_context : option AudioContextState;
  start_throws : bool;
}.

(** [source.stop()] *)
Definition stop (p : Platform) (source : AudioBufferSourceNode) (s : View) : result View :=
  if stop_throws p then throw Error ""
  else Ok (log (SourceStopped (source_id source)) s).

(** [stopAudio] *)
Definition stopAudio (p : Platform) (s : View) : View :=
  let s :=
    match audioSourceRef s with
    | Some source =>
        let s := match stop p source s with
                 | Ok s' => s'
                 | Err _ => s          (* [catch(e) {}] *)
                 end in
        set_audioSourceRef None s
    | None => s
    end in
  setActiveAudioType None s.

(** The [catch] and [finally] blocks of [handlePlay]. *)
Definition play_failed (s : View) : View :=
  setLoadingAudioType None
    (log (Alerted "Could not play audio. Please check connection.") s).

(** [handlePlay], lines 101-107 and the [finally] block. *)
Definition start_source (p : Platform) (type : TextType) (buffer : AudioBuffer)
    (s : View) : View :=
  if start_throws p then play_failed s
  else
    let source := mkSource (length (effects s)) buffer in
    let s := log (SourceStarted (source_id source) type buffer) s in
    let s := set_audioSourceRef (Some source) s in
    let s := setActiveAudioType (Some type) s in
    setLoadingAudioType None s.

(** [handlePlay], lines 92-99: the output context is made on first need
    and resumed when it reports [suspended]. *)
Definition with_context (p : Platform) (type : TextType) (buffer : AudioBuffer)
    (s : View) : View :=
  let created :=
    match audioContextRef s with
    | Some _ => Some s
    | None =>
        match new_context p with
        | Some state => Some (set_audioContextRef (Some state) (log ContextCreated s))
        | None => None
        end
    end in
  match created with
  | None => play_failed s
  | Some s =>
      if bool_decide (audioContextRef s = Some suspended)
      then suspend (AwaitResume type buffer) (log ContextResumed s)
      else start_source p type buffer s
  end.

Definition cache_key (type : TextType) (currentLanguage : string) : string :=
  match type with
  | translated => "translated_" +:+ currentLanguage
  | _ => type_name type
  end.

Section Props.

Variable content : ProcessedContent.
Variable settings : UserSettings.

(** The language handed to [generateSpeech]. *)
Definition request_language (type : TextType) (s : View) : string :=
  match type with
  | translated => currentLanguage s
  | _ => targetLanguage settings
  end.

(** [handlePlay], up to its first [await]. *)
Definition handlePlay (p : Platform) (type : TextType) (text : string) (s : View) : View :=
  if bool_decide (activeAudioType s = Some type) then stopAudio p s
  else
    let s := stopAudio p s in
    if bool_decide (text = "") then s
    else
      let s := setLoadingAudioType (Some type) s in
      let cacheKey := cache_key type (currentLanguage s) in
      match audioCache s !! cacheKey with
      | Some buffer => with_context p type buffer s
      | None =>
          suspend (AwaitSpeech type cacheKey)
            (log (SpeechRequested text (request_language type s)) s)
      end.

(** [handlePlay] after [await generateSpeech(...)] settles with [r]. *)
Definition speech_settled (p : Platform) (k : nat) (r : result AudioBuffer) (s : View) : View :=
  match pending s !! k with
  | Some (AwaitSpeech type cacheKey) =>
      let s := set_pending (delete k (pending s)) s in
      match r with
      | Ok buffer =>
          with_context p type buffer
            (set_audioCache (<[cacheKey := buffer]> (audioCache s)) s)
      | Err _ => play_failed s
      end
  | _ => s
  end.

(** [handlePlay] after [await audioContextRef.current.resume()] settles. *)
Definition resume_settled (p : Platform) (k : nat) (r : result unit) (s : View) : View :=
  match pending s !! k with
  | Some (AwaitResume type buffer) =>
      let s := set_pending (delete k (pending s)) s in
      match r with
      | Ok _ =>
          let s := if bool_decide (audioContextRef s = Some suspended)
                   then set_audioContextRef (Some running) s else s in
          start_source p type buffer s
      | Err _ => play_failed s
      end
  | _ => s
  end.

(** [handleLanguageChange], up to its [await]. *)
Definition handleLanguageChange (p : Platform) (newLang : string) (s : View) : View :=
  let s := setCurrentLanguage newLang s in
  let s := setIsTranslating true s in
  let s := stopAudio p s in
  let source_text := if bool_decide (simplifiedText content = "")
                     then originalText content else simplifiedText content in
  suspend AwaitTranslate (log (TranslationRequested source_text newLang) s).

(** [handleLanguageChange] after [await translateText(...)] settles. *)
Definition translate_settled (k : nat) (r : result string) (s : View) : View :=
  match pending s !! k with
  | Some AwaitTranslate =>
      let s := set_pending (delete k (pending s)) s in
      let s :=
        match r with
        | Ok newText =>
            let s := setTranslatedText newText s in
            match audioCache s !! "translated" with
            | Some _ => set_audioCache (delete "translated" (audioCache s)) s
            | None => s
            end
        | Err _ => s
        end in
      setIsTranslating false s
  | _ => s
  end.

(** The effect cleanup, run when the view is taken down. *)
Definition cleanup (p : Platform) (s : View) : View :=
  let s := stopAudio p s in
  match audioContextRef s with
  | Some _ => set_audioContextRef (Some closed) (log ContextClosed s)
  | None => s
  end.

(** The text a card shows and hands to [handlePlay], and whether its
    button is disabled. *)
Definition card_text (type : TextType) (s : View) : string :=
  match type with
  | original => originalText content
  | simplified => simplifiedText content
  | translated => translatedText s
  end.

Definition button_disabled (type : TextType) (s : View) : bool :=
  bool_decide (loadingAudioType s = Some type)
  || (match type with translated => isTranslating s | _ => false end)
  || bool_decide (card_text type s = "").

Inductive event :=
  | Click (type : TextType)                     (* the card's button *)
  | SelectLanguage (newLang : string)           (* the language menu *)
  | SpeechSettled (k : nat) (r : result AudioBuffer)
  | ResumeSettled (k : nat) (r : result unit)
  | TranslateSettled (k : nat) (r : result string)
  | Ended                                       (* [source.onended] *)
  | Suspended                                   (* the browser suspends the context *)
  | Unmount.

Definition step (p : Platform) (e : event) (s : View) : View :=
  match e with
  | Click type =>
      if mounted s && negb (button_disabled type s)
      then handlePlay p type (card_text type s) s else s
  | SelectLanguage newLang =>
      if mounted s then handleLanguageChange p newLang s else s
  | SpeechSettled k r => speech_settled p k r s
  | ResumeSettled k r => resume_settled p k r s
  | TranslateSettled k r => translate_settled k r s
  | Ended => setActiveAudioType None s
  | Suspended =>
      if bool_decide (audioContextRef s = Some running)
      then set_audioContextRef (Some suspended) s else s
  | Unmount =>
      if mounted s then set_mounted false (cleanup p s) else s
  end.

Definition run (tr : list (Platform * event)) (s : View) : View :=
  foldl (fun s pe => step pe.1 pe.2 s) s tr.

(** The view as first rendered. *)
Definition init : View :=
  mkView None None (Gemini.translatedText content) (targetLanguage settings)
    false None None ∅ true [] [].

End Props.

(** The playback state the cards display. *)
Inductive Playback := IDLE | LOADING (v : TextType) | PLAYING (v : TextType).

Definition playback (s : View) : Playback :=
  match loadingAudioType s with
  | Some v => LOADING v
  | None =>
      match activeAudioType s with
      | Some v => PLAYING v
      | None => IDLE
      end
  end.

Fixpoint count (f : effect → bool) (l : list effect) : nat :=
  match l with
  | [] => 0
  | e :: l => (if f e then 1 else 0) + count f l
  end.

Definition is_speech (e : effect) : bool :=
  match e with SpeechRequested _ _ => true | _ => false end.
Definition is_created (e : effect) : bool :=
  match e with ContextCreated => true | _ => false end.
Definition is_closed (e : effect) : bool :=
  match e with ContextClosed => true | _ => false end.
Definition is_resumed (e : effect) : bool :=
  match e with ContextResumed => true | _ => false end.
Definition is_alert (e : effect) : bool :=
  match e with Alerted _ => true | _ => false end.

Definition speech_calls (s : View) : nat := count is_speech (effects s).
Definition contexts_created (s : View) : nat := count is_created (effects s).
Definition contexts_closed (s : View) : nat := count is_closed (effects s).
Definition alerts (s : View) : nat := count is_alert (effects s).

(** *** Notions used in the statements *)

(** The variant a settled request starts playing, if any, and the
    later of two such. *)
Definition started (type : TextType) (r : result AudioBuffer) : option TextType :=
  match r with
  | Ok _ => Some type
  | Err _ => None
  end.

Definition later_of (first second : option TextType) : option TextType :=
  match second with
  | Some v => Some v
  | None => first
  end.

Definition showing (v : option TextType) : Playback :=
  match v with
  | Some v => PLAYING v
  | None => IDLE
  end.


(** What a step other than the teardown may do to the context: nothing is
    closed, and a context is made only where there was none. *)
Definition context_step (s s' : View) : Prop :=
  contexts_closed s' = contexts_closed s
  ∧ mounted s' = mounted s
  ∧ match audioContextRef s, audioContextRef s' with
    | Some _, Some _ => contexts_created s' = contexts_created s
    | Some _, None => False
    | None, Some _ => contexts_created s' = S (contexts_created s)
    | None, None => contexts_created s' = contexts_created s
    end.

(** No audio is ever stored, or about to be stored, under the bare key
    that [handleLanguageChange] deletes. *)
Definition keys_inv (s : View) : Prop :=
  audioCache s !! "translated" = None
  ∧ ∀ type key, AwaitSpeech type key ∈ pending s → key ≠ "translated".

End Reader.

(** ** Scenarios *)

Module Scenario.
Import Pcm Gemini Reader.

(** A captured page, the user's settings, a browser on which nothing goes
    wrong, and one-frame buffers told apart by their sample. *)
Definition page : ProcessedContent :=
  mkContent "Keep out of reach" "Keep away" "Mantener alejado" "English" 1 false.

Definition prefs : UserSettings := mkSettings 0 24 DEFAULT "Spanish" false.

Definition calm : Platform := mkPlatform false (Some running) false.

Definition tone (v : Z) : AudioBuffer :=
  mkAudioBuffer 1 1 24000 [[Fin (inject_Z v / 32768)]].

(** Original is requested, then simplified before the first synthesis
    settles; the second synthesis settles first. *)
Definition overtaken : list (Platform * event) :=
  [(calm, Click original); (calm, Click simplified);
   (calm, SpeechSettled 1 (Ok (tone 2))); (calm, SpeechSettled 0 (Ok (tone 1)))].

(** Original is requested, then simplified, whose synthesis settles first
    and plays while the first one is still awaited. *)
Definition outpaced : list (Platform * event) :=
  [(calm, Click original); (calm, Click simplified);
   (calm, SpeechSettled 1 (Ok (tone 2)))].

(** The translation is played in Spanish; the user then switches to French
    and back to Spanish, which brings a new Spanish text. *)
Definition revisit : list (Platform * event) :=
  [(calm, Click translated); (calm, SpeechSettled 0 (Ok (tone 1))); (calm, Ended);
   (calm, SelectLanguage "French"); (calm, TranslateSettled 0 (Ok "Tenir a l'ecart"));
   (calm, SelectLanguage "Spanish"); (calm, TranslateSettled 0 (Ok "Mantengase lejos"))].

(** The original text is played to its end and once more, then the user
    leaves the view. *)
Definition full_session : list (Platform * event) :=
  [(calm, Click original); (calm, SpeechSettled 0 (Ok (tone 1))); (calm, Ended);
   (calm, Click original); (calm, Unmount)].

(** The user leaves the view while the first synthesis is in flight. *)
Definition left_early : list (Platform * event) :=
  [(calm, Click original); (calm, Unmount); (calm, SpeechSettled 0 (Ok (tone 1)))].

(** The text Chrome gives the [TypeError] of [null.replace(...)]. *)
Definition null_replace : string :=
  "Cannot read properties of null (reading 'replace')".

(** A provider that answers without inline audio. *)
Definition silent_env : Env :=
  mkEnv "key" (fun _ => Ok (mkResponse (Some [mkCandidate (Some (mkParts (Some [mkPart None])))]) None))
        (Ok tt) (Ok tt) null_replace.

(** A provider and a parsed answer for a medicine label. *)
Definition label_env : Env :=
  mkEnv "key" (fun _ => Ok (mkResponse None (Some "{...}"))) (Ok tt) (Ok tt)
        null_replace.

Definition label_parse (_ : string) : result ProcessedContent :=
  Ok (mkContent "Daily DOSAGE: two tablets" "Take two tablets a day"
        "Tome dos tabletas al dia" "Spanish" 1 false).

End Scenario.

(** ** API key lookup ([getApiKey], geminiService.ts) *)

Module Config.
Import Gemini.

(** The four places [getApiKey] looks in, in its order; [None] where the
    object or the variable is missing. *)
Record KeySources := mkSources {
  VITE_API_KEY : option string;        (* [import.meta.env.VITE_API_KEY] *)
  REACT_APP_API_KEY : option string;   (* [process.env.REACT_APP_API_KEY] *)
  process_API_KEY : option string;     (* [process.env.API_KEY] *)
  window_API_KEY : option string;      (* [window.process.env.API_KEY] *)
}.

(** A value passes an [if] when it is there and not the empty string. *)
Definition truthy (v : option string) : bool :=
  match v with
  | Some (String _ _) => true
  | _ => false
  end.

Definition getApiKey (src : KeySources) : string :=
  if truthy (VITE_API_KEY src) then default "" (VITE_API_KEY src)
  else if truthy (REACT_APP_API_KEY src) then default "" (REACT_APP_API_KEY src)
  else if truthy (process_API_KEY src) then default "" (process_API_KEY src)
  else if truthy (window_API_KEY src) then default "" (window_API_KEY src)
  else "".

(** The surroundings of a call, with the key as [getApiKey] finds it, in a
    browser whose audio contexts close. *)
Definition env_of (src : KeySources)
    (provider : Request → result GenerateContentResponse)
    (context : result unit) : Env :=
  mkEnv (getApiKey src) provider context (Ok tt) Scenario.null_replace.

(** The characters of a base64 string that [atob] decodes: whitespace and
    padding are gone. *)
Definition base64_body (base64 : string) : list ascii :=
  strip_padding (filter (fun c => is_ascii_whitespace c = false)
                        (String.list_ascii_of_string base64)).

(** The buffer [decodeAudioData] makes of mono PCM bytes. *)
Definition mono_buffer (rate : Z) (bytes : list Byte.byte) : Pcm.AudioBuffer :=
  Pcm.mkAudioBuffer 1 (length bytes / 2) rate
    [(fun v => Fin (inject_Z v / 32768)) <$> Pcm.int16_view bytes].

(** The data URL headers [processImage] removes. *)
Definition image_header (kind : string) : string :=
  "data:image/" +:+ kind +:+ ";base64,".

Definition stripped_kinds : list string := ["png"; "jpeg"; "jpg"; "webp"].

Definition vision_request (base64Image : string) (settings : UserSettings) : Request :=
  mkRequest "gemini-2.5-flash" (Some (clean_base64 base64Image))
    (vision_prompt (targetLanguage settings)).

Definition translation_failure : error := mkError Error "Translation failed".

Definition missing_key_message : string :=
  "Configuration Error: API Key is missing. Please check settings.".

Definition translation_request (text targetLanguage : string) : Request :=
  mkRequest "gemini-2.5-flash" None
    ("Translate the following text into " +:+ targetLanguage
     +:+ ". Return ONLY the translated text, no explanations."
     +:+ nl +:+ nl +:+ "Text: " +:+ text).

(** The answer carries no text, or an empty one. *)
Definition no_text (response : GenerateContentResponse) : Prop :=
  Gemini.text response = None ∨ Gemini.text response = Some "".

(** The extracted text names one of the critical keywords, in any letter
    case. *)
Definition names_critical_keyword (text : string) : Prop :=
  ∃ kw, kw ∈ CRITICAL_KEYWORDS ∧ contains_ignoring_case text kw.

(** A provider that answers with two 16-bit samples, 0 and 32767, as inline
    base64. *)
Definition speaking_env : Env :=
  mkEnv "key"
    (fun _ => Ok (mkResponse
                    (Some [mkCandidate
                             (Some (mkParts (Some [mkPart (Some (mkBlob (Some "AAD/fw==")))])))])
                    None))
    (Ok tt) (Ok tt) Scenario.null_replace.

Definition two_samples : list Byte.byte := [Byte.x00; Byte.x00; Byte.xff; Byte.x7f].

(** A deployment in which no key is configured. *)
Definition no_key : KeySources := mkSources None (Some "") None None.

End Config.

(** ** Accounting over a session of the reader view *)

Module Trace.
Import Pcm Gemini Reader.

Definition is_started (e : effect) : bool :=
  match e with SourceStarted _ _ _ => true | _ => false end.
Definition is_stopped (e : effect) : bool :=
  match e with SourceStopped _ => true | _ => false end.
Definition is_translation (e : effect) : bool :=
  match e with TranslationRequested _ _ => true | _ => false end.

Definition sources_started (s : View) : nat := count is_started (effects s).
Definition sources_stopped (s : View) : nat := count is_stopped (effects s).
Definition translation_calls (s : View) : nat := count is_translation (effects s).

Definition is_click (e : event) : bool :=
  match e with Click _ => true | _ => false end.
Definition is_selection (e : event) : bool :=
  match e with SelectLanguage _ => true | _ => false end.

(** How many events of a kind a session holds. *)
Fixpoint occurrences (f : event → bool) (tr : list (Platform * event)) : nat :=
  match tr with
  | [] => 0
  | pe :: tr => (if f pe.2 then 1 else 0) + occurrences f tr
  end.

(** The variant a suspended [handlePlay] belongs to. *)
Definition frame_type (f : frame) : option TextType :=
  match f with
  | AwaitSpeech type _ | AwaitResume type _ => Some type
  | AwaitTranslate => None
  end.

Definition playback_alert : string :=
  "Could not play audio. Please check connection.".

(** [content.simplifiedText || content.originalText] *)
Definition translation_source (content : ProcessedContent) : string :=
  if bool_decide (simplifiedText content = "")
  then originalText content else simplifiedText content.

(** What the cards display has a cause: a loading card has a request in
    flight, the translation spinner has a translation in flight, and the
    playing card is the one the current source was started for. *)
Definition grounded (s : View) : Prop :=
  (∀ type, loadingAudioType s = Some type →
     ∃ f, f ∈ pending s ∧ frame_type f = Some type)
  ∧ (isTranslating s = true → AwaitTranslate ∈ pending s)
  ∧ (∀ type, activeAudioType s = Some type →
       ∃ source, audioSourceRef s = Some source
                 ∧ SourceStarted (source_id source) type (source_buffer source)
                   ∈ effects s).

End Trace.

(** ** Application shell ([App.tsx]) *)

Module App.
Import Gemini.

Inductive AppState := AUTH | HOME | CAMERA | PROCESSING | READING | SETTINGS.

#[global] Instance AppState_eq_dec : EqDecision AppState.
Proof. solve_decision. Defined.

Record User := mkUser {
  id : string;
  username : string;
  opusToken : string;
}.

Definition DEFAULT_SETTINGS : UserSettings := mkSettings 0 24 DEFAULT "English" false.

(** The hooks of [App] (the two fields of the sign-in form are left out:
    they only feed [opusLogin]), with what is under way outside it: the
    calls of [opusLogin] and of [processImage] that have not settled yet,
    and the files that are still being read.  A call of [processImage] is
    kept with its arguments.  A file being read is kept with the settings
    of the render in which it was chosen: [reader.onloadend] holds the
    [handleCapture] of that render, and with it these settings. *)
Record State := mkState {
  appState : AppState;
  currentUser : option User;
  settings : UserSettings;
  content : option ProcessedContent;
  showSettings : bool;
  errorText : option string;           (* the [error] hook *)
  isLoggingIn : bool;
  logins : nat;
  captures : list (option string * UserSettings);
  reads : list UserSettings;
}.

(** The first render and the mount effect, given what [getStoredUser] and
    [getSettings] return. *)
Definition start (storedUser : option User) (savedSettings : UserSettings) : State :=
  match storedUser with
  | Some user => mkState HOME (Some user) savedSettings None false None false 0 [] []
  | None => mkState AUTH None savedSettings None false None false 0 [] []
  end.

(** [handleLogin], up to [await opusLogin(email, password)]. *)
Definition handleLogin (s : State) : State :=
  mkState (appState s) (currentUser s) (settings s) (content s) (showSettings s)
    None true (S (logins s)) (captures s) (reads s).

(** [handleLogin] once [opusLogin] has settled. *)
Definition login_settled (r : result User) (s : State) : State :=
  match logins s with
  | 0 => s
  | S n =>
      match r with
      | Ok user =>
          mkState HOME (Some user) (settings s) (content s) (showSettings s)
            (errorText s) false n (captures s) (reads s)
      | Err err =>
          mkState (appState s) (currentUser s) (settings s) (content s)
            (showSettings s) (Some (message err)) false n (captures s) (reads s)
      end
  end.

(** [handleCapture], up to [await processImage(imageSrc, settings)].
    [render_settings] is the [settings] of the render this [handleCapture]
    was made in; [imageSrc] is [None] for the [null] that a failed file read
    delivers. *)
Definition handleCapture (render_settings : UserSettings) (imageSrc : option string)
    (s : State) : State :=
  mkState PROCESSING (currentUser s) (settings s) (content s) (showSettings s)
    None (isLoggingIn s) (logins s)
    (captures s ++ [(imageSrc, render_settings)]) (reads s).

(** [handleCapture] once [processImage] has settled. *)
Definition capture_settled (k : nat) (r : result ProcessedContent) (s : State) : State :=
  match captures s !! k with
  | Some _ =>
      match r with
      | Ok result =>
          mkState READING (currentUser s) (settings s) (Some result)
            (showSettings s) (errorText s) (isLoggingIn s) (logins s)
            (delete k (captures s)) (reads s)
      | Err err =>
          mkState HOME (currentUser s) (settings s) (content s) (showSettings s)
            (Some (if bool_decide (message err = "")
                   then "Failed to process image" else message err))
            (isLoggingIn s) (logins s) (delete k (captures s)) (reads s)
      end
  | None => s
  end.

(** [handleFileUpload] of the camera view, up to the end of the read. *)
Definition handleFileUpload (s : State) : State :=
  mkState (appState s) (currentUser s) (settings s) (content s) (showSettings s)
    (errorText s) (isLoggingIn s) (logins s) (captures s)
    (reads s ++ [settings s]).

(** [reader.onloadend]: [onCapture(reader.result as string)], with the
    [onCapture] of the render in which the file was chosen. *)
Definition file_loaded (k : nat) (result : option string) (s : State) : State :=
  match reads s !! k with
  | Some render_settings =>
      handleCapture render_settings result
        (mkState (appState s) (currentUser s) (settings s) (content s)
           (showSettings s) (errorText s) (isLoggingIn s) (logins s)
           (captures s) (delete k (reads s)))
  | None => s
  end.

(** [handleSettingsUpdate]; saving the settings, at once or after the
    simulated sync, changes nothing [App] reads again. *)
Definition handleSettingsUpdate (newSettings : UserSettings) (s : State) : State :=
  mkState (appState s) (currentUser s) newSettings (content s) (showSettings s)
    (errorText s) (isLoggingIn s) (logins s) (captures s) (reads s).

Definition setAppState (v : AppState) (s : State) : State :=
  mkState v (currentUser s) (settings s) (content s) (showSettings s)
    (errorText s) (isLoggingIn s) (logins s) (captures s) (reads s).

Definition setShowSettings (v : bool) (s : State) : State :=
  mkState (appState s) (currentUser s) (settings s) (content s) v
    (errorText s) (isLoggingIn s) (logins s) (captures s) (reads s).

Definition setError (v : option string) (s : State) : State :=
  mkState (appState s) (currentUser s) (settings s) (content s) (showSettings s)
    v (isLoggingIn s) (logins s) (captures s) (reads s).

(** What [App] renders (the settings panel, laid over everything but the
    sign-in screen while [showSettings] holds, apart).  [{error && ...}]
    shows a message only when it is not empty. *)
Inductive Screen :=
  | SignIn (message : option string)
  | Camera (toast : option string)
  | Processing
  | Reader (content : ProcessedContent) (settings : UserSettings)
  | Blank.

Definition shown (v : option string) : option string :=
  match v with
  | Some (String _ _ as msg) => Some msg
  | _ => None
  end.

Definition screen (s : State) : Screen :=
  match appState s with
  | AUTH => SignIn (shown (errorText s))
  | HOME => Camera (shown (errorText s))
  | PROCESSING => Processing
  | READING =>
      match content s with
      | Some c => Reader c (settings s)
      | None => Blank
      end
  | CAMERA | SETTINGS => Blank
  end.

(** What can happen to [App].  The form is there to be submitted on the
    sign-in screen only.  [Capture] is the button of the camera, which
    calls the [handleCapture] of the render on screen with the frame as a
    data URL; the step lets it happen in every state but [AUTH], which
    covers the states in which the camera view is shown.  A file is chosen
    in the camera view, and its read ends whenever it ends, with a data URL
    or with [null]. *)
Inductive event :=
  | Submit
  | LoginSettled (r : result User)
  | Capture (imageSrc : string)
  | ChooseFile
  | FileLoaded (k : nat) (result : option string)
  | CaptureSettled (k : nat) (r : result ProcessedContent)
  | Back                                  (* [onBack] of the reader view *)
  | Dismiss                               (* the button of the error toast *)
  | OpenSettings
  | CloseSettings
  | SaveSettings (newSettings : UserSettings).

Definition step (e : event) (s : State) : State :=
  match e with
  | Submit =>
      if bool_decide (appState s = AUTH) then handleLogin s else s
  | LoginSettled r => login_settled r s
  | Capture imageSrc =>
      if bool_decide (appState s = AUTH) then s
      else handleCapture (settings s) (Some imageSrc) s
  | ChooseFile =>
      if bool_decide (appState s = HOME) then handleFileUpload s else s
  | FileLoaded k result => file_loaded k result s
  | CaptureSettled k r => capture_settled k r s
  | Back =>
      match screen s with
      | Reader _ _ => setAppState HOME s
      | _ => s
      end
  | Dismiss =>
      match screen s with
      | Camera (Some _) => setError None s
      | _ => s
      end
  | OpenSettings =>
      if bool_decide (appState s = HOME) then setShowSettings true s else s
  | CloseSettings =>
      if showSettings s && negb (bool_decide (appState s = AUTH))
      then setShowSettings false s else s
  | SaveSettings newSettings =>
      if showSettings s && negb (bool_decide (appState s = AUTH))
      then handleSettingsUpdate newSettings s else s
  end.

Definition run (tr : list event) (s : State) : State :=
  foldl (fun s e => step e s) s tr.

(** Signed in wherever the sign-in screen is not shown, an image is
    being processed or a file is being read, and something to read wherever
    the reader view is due. *)
Definition app_inv (s : State) : Prop :=
  (appState s = AUTH ∨ appState s = HOME ∨ appState s = PROCESSING
   ∨ appState s = READING)
  ∧ (appState s ≠ AUTH → is_Some (currentUser s))
  ∧ (captures s ≠ [] → is_Some (currentUser s))
  ∧ (reads s ≠ [] → is_Some (currentUser s))
  ∧ (appState s = READING → is_Some (content s)).

End App.

(** ** More scenarios *)

Module Sessions.
Import Pcm Gemini Reader Scenario.

(** The original text has been synthesised and is playing. *)
Definition playing_original : View :=
  run page prefs
    [(calm, Click original); (calm, SpeechSettled 0 (Ok (tone 1)))]
    (init page prefs).

(** The simplified text is requested while the original one plays, and the
    original one is started again, from the cache, before that synthesis
    settles. *)
Definition replayed_meanwhile : View :=
  run page prefs [(calm, Click simplified); (calm, Click original)] playing_original.

(** The original text has been played to its end, and the browser has
    suspended the context since. *)
Definition suspended_after_play : View :=
  run page prefs [(calm, Ended); (calm, Suspended)] playing_original.

(** A browser that grants no audio context. *)
Definition mute : Platform := mkPlatform false None false.

(** A provider whose quota is used up. *)
Definition failing_env : Env :=
  mkEnv "key" (fun _ => throw Error "quota exceeded") (Ok tt) (Ok tt)
    null_replace.

(** What [processImage] makes of the medicine label. *)
Definition flagged_label : ProcessedContent :=
  mkContent "Daily DOSAGE: two tablets" "Take two tablets a day"
    "Tome dos tabletas al dia" "Spanish" 1 true.

End Sessions.

(** ** Sign-in ([opusLogin], persistenceService.ts) *)

Module Persistence.
Import Gemini App.

(** [email.split('@')[0]] *)
Fixpoint before_at (email : string) : string :=
  match email with
  | EmptyString => EmptyString
  | String c rest =>
      if Ascii.eqb c "@" then EmptyString else String c (before_at rest)
  end.

(** [opusLogin(email, password)].  [suffix1] and [suffix2] are the two
    strings cut out of [Math.random()].  The promise is settled from inside
    a timer: when [localStorage.setItem] throws there, nobody catches it
    and the promise never settles, which is [None]. *)
Definition opusLogin (suffix1 suffix2 : string) (setItem_throws : bool)
    (email password : string) : option (result User) :=
  if includes email "error"
  then Some (throw Error "Invalid credentials provided to Opus ID.")
  else
    let user := mkUser ("opus_" +:+ suffix1)
                  (if bool_decide (before_at email = "")
                   then "User" else before_at email)
                  ("ops_tk_" +:+ suffix2) in
    if setItem_throws then None else Some (Ok user).

End Persistence.

(** * Properties *)

(** ** PCM decoder *)

Module PcmSpec.
Import Pcm.

Lemma int16_le_range lo hi : (-32768 ≤ int16_le lo hi ≤ 32767)%Z.
Proof.
  unfold int16_le.
  pose proof (Byte.to_N_bounded lo). pose proof (Byte.to_N_bounded hi).
  destruct (Z.ltb_spec (Z.of_N (Byte.to_N lo) + 256 * Z.of_N (Byte.to_N hi)) 32768); lia.
Qed.

Lemma normalised_range v :
  (-32768 ≤ v ≤ 32767)%Z → (-1 <= inject_Z v / 32768 <= 1)%Q.
Proof.
  intros Hv. unfold Qdiv, Qmult, Qinv, Qle, inject_Z. simpl. lia.
Qed.

(** Two bytes at a time. *)
Lemma pairs_ind (P : list Byte.byte → Prop) :
  P [] → (∀ b, P [b]) → (∀ lo hi rest, P rest → P (lo :: hi :: rest)) →
  ∀ l, P l.
Proof.
  intros H0 H1 H2 l.
  assert (P l ∧ ∀ b, P (b :: l)) as [? _]; [|done].
  induction l as [|a l [IH1 IH2]]; split; auto.
Qed.

Lemma length_int16_view data : length (int16_view data) = length data / 2.
Proof.
  induction data as [| b | lo hi rest IH] using pairs_ind; [done..|].
  cbn [int16_view length]. rewrite IH.
  replace (S (S (length rest))) with (length rest + 1 * 2) by lia.
  rewrite Nat.div_add by lia. lia.
Qed.

Lemma int16_view_lookup data k :
  k < length data / 2 →
  ∃ lo hi, data !! (2 * k) = Some lo ∧ data !! (2 * k + 1) = Some hi
           ∧ int16_view data !! k = Some (int16_le lo hi).
Proof.
  revert k.
  induction data as [| b | lo hi rest IH] using pairs_ind; intros k Hk.
  - simpl in Hk. lia.
  - simpl in Hk. lia.
  - destruct k as [|k].
    + exists lo, hi. done.
    + replace (length (lo :: hi :: rest)) with (length rest + 1 * 2) in Hk
        by (simpl; lia).
      rewrite Nat.div_add in Hk by lia.
      destruct (IH k) as (lo' & hi' & Hlo & Hhi & Hv); [lia|].
      exists lo', hi'.
      replace (2 * S k) with (S (S (2 * k))) by lia.
      replace (S (S (2 * k)) + 1) with (S (S (2 * k + 1))) by lia.
      done.
Qed.

(** The inner loop stores [f i] at every index it visits and that the
    array has. *)
Lemma stores_length {A} (f : nat → A) (d : list A) n :
  length (foldl (fun d i => <[i := f i]> d) d (seq 0 n)) = length d.
Proof.
  induction n as [|n IH]; [done|].
  rewrite seq_S, foldl_app. simpl. by rewrite length_insert.
Qed.

Lemma stores_lookup {A} (f : nat → A) (d : list A) n i :
  i < n → i < length d →
  foldl (fun d i => <[i := f i]> d) d (seq 0 n) !! i = Some (f i).
Proof.
  induction n as [|n IH]; intros Hn Hd; [lia|].
  rewrite seq_S, foldl_app. simpl.
  destruct (decide (i = n)) as [->|Hne].
  - apply list_lookup_insert_eq. by rewrite stores_length.
  - rewrite list_lookup_insert_ne by done. apply IH; lia.
Qed.

(** The outer loop rewrites every channel it visits. *)
Lemma channels_length {A} (g : nat → list A → list A) (chans : list (list A)) n :
  length (foldl (fun chans c =>
                   match chans !! c with
                   | Some d => <[c := g c d]> chans
                   | None => chans
                   end) chans (seq 0 n)) = length chans.
Proof.
  induction n as [|n IH]; [done|].
  rewrite seq_S, foldl_app. simpl.
  destruct (_ !! n); [by rewrite length_insert|done].
Qed.

Lemma channels_lookup {A} (g : nat → list A → list A) (chans : list (list A)) n c d :
  c < n → chans !! c = Some d →
  foldl (fun chans c =>
           match chans !! c with
           | Some d => <[c := g c d]> chans
           | None => chans
           end) chans (seq 0 n) !! c = Some (g c d).
Proof.
  revert c d. induction n as [|n IH]; intros c d Hn Hc; [lia|].
  rewrite seq_S, foldl_app. simpl.
  destruct (decide (c = n)) as [->|Hne].
  - assert (∀ m, m ≤ n →
        foldl (fun chans c =>
           match chans !! c with
           | Some d => <[c := g c d]> chans
           | None => chans
           end) chans (seq 0 m) !! n = Some d) as Hkeep.
    { induction m as [|m IHm]; intros Hm; [done|].
      rewrite seq_S, foldl_app. simpl.
      destruct (_ !! m); [|apply IHm; lia].
      rewrite list_lookup_insert_ne by lia. apply IHm. lia. }
    rewrite Hkeep by lia.
    apply list_lookup_insert_eq. rewrite channels_length.
    by eapply lookup_lt_Some.
  - destruct (_ !! n).
    + rewrite list_lookup_insert_ne by done. apply IH; [lia|done].
    + apply IH; [lia|done].
Qed.

Lemma frame_count_floor n c :
  Z.to_nat (Qfloor (inject_Z (Z.of_nat n) / inject_Z (Z.of_nat c))) = n / c.
Proof.
  rewrite <- Zdiv_Qdiv.
  destruct c as [|c]; [by rewrite Z.div_0_r|].
  rewrite <- Nat2Z.inj_div. apply Nat2Z.id.
Qed.

Lemma frame_count_ceiling n c :
  n / c ≤ Z.to_nat (Qceiling (inject_Z (Z.of_nat n) / inject_Z (Z.of_nat c))).
Proof.
  rewrite <- frame_count_floor.
  pose proof (Qle_floor_ceiling
    (inject_Z (Z.of_nat n) / inject_Z (Z.of_nat c))) as H.
  rewrite <- Zle_Qle in H. lia.
Qed.

Section Decoder.

Variable supports : nat → Z → bool.

(** C4.  A buffer of odd byte length is always refused: the decoder fails
    with the [RangeError] of the [Int16Array] constructor (the
    specification's MalformedAudioError) and returns no audio. *)
Theorem decode_odd_length_fails (data : list Byte.byte) (rate : Z) (numChannels : nat) :
  Nat.even (length data) = false →
  decodeAudioData supports data rate numChannels = Err (mkError RangeError "").
Proof.
  intros Hodd. unfold decodeAudioData, Int16Array. by rewrite Hodd.
Qed.

(** C3, amended.  For a buffer of even byte length that holds at least one
    whole frame, and a channel count and sample rate the browser supports,
    [decodeAudioData] returns a buffer of [floor (sampleCount / channelCount)]
    frames, where [sampleCount] is half the byte length; sample [i] of
    channel [c] is the signed little-endian 16-bit value at sample index
    [i * channelCount + c] divided by 32768, which lies in [-1, 1]. *)
Theorem decode_even_length (data : list Byte.byte) (rate : Z) (numChannels : nat) :
  Nat.even (length data) = true →
  0 < numChannels →
  numChannels ≤ length data / 2 →
  supports numChannels rate = true →
  ∃ buffer,
    decodeAudioData supports data rate numChannels = Ok buffer
    ∧ numberOfChannels buffer = numChannels
    ∧ sampleRate buffer = rate
    ∧ frames buffer = length data / 2 / numChannels
    ∧ length (channelData buffer) = numChannels
    ∧ ∀ channel, channel < numChannels →
        ∃ samples,
          channelData buffer !! channel = Some samples
          ∧ length samples = frames buffer
          ∧ ∀ i, i < frames buffer →
              ∃ lo hi,
                data !! (2 * (i * numChannels + channel)) = Some lo
                ∧ data !! (2 * (i * numChannels + channel) + 1) = Some hi
                ∧ samples !! i = Some (Fin (inject_Z (int16_le lo hi) / 32768))
                ∧ (-1 <= inject_Z (int16_le lo hi) / 32768 <= 1)%Q.
Proof.
  intros Heven Hpos Hframe Hsup.
  unfold decodeAudioData, Int16Array. rewrite Heven. simpl.
  unfold createBuffer.
  rewrite length_int16_view, frame_count_floor, Hsup.
  set (n := length data / 2) in *.
  assert (0 < n / numChannels) as Hf by (apply Nat.div_str_pos; lia).
  destruct (Nat.eqb_spec numChannels 0) as [|_]; [lia|].
  destruct (Nat.eqb_spec (n / numChannels) 0) as [|_]; [lia|].
  simpl. eexists. split; [reflexivity|]. simpl.
  split; [done|]. split; [done|]. split; [done|].
  split; [by rewrite channels_length, length_replicate|].
  intros channel Hc.
  eexists. split.
  { apply channels_lookup; [done|]. by apply lookup_replicate_2. }
  unfold fill_channel.
  split; [by rewrite stores_length, length_replicate|].
  intros i Hi.
  assert (i * numChannels + channel < n) as Hk.
  { pose proof (Nat.Div0.mul_div_le n numChannels). nia. }
  destruct (int16_view_lookup data _ Hk) as (lo & hi & Hlo & Hhi & Hv).
  exists lo, hi. split; [done|]. split; [done|]. split.
  - rewrite stores_lookup.
    + unfold sample. by rewrite Hv.
    + pose proof (frame_count_ceiling n numChannels). lia.
    + by rewrite length_replicate.
  - apply normalised_range, int16_le_range.
Qed.

End Decoder.

(** C3, as stated, fails on the empty buffer: its length is even, and
    [createBuffer] refuses a buffer of zero frames. *)
Lemma decode_empty_buffer_rejected :
  Nat.even (length (@nil Byte.byte)) = true
  ∧ decodeAudioData required_ranges [] 24000 1
    = Err (mkError NotSupportedError "").
Proof. split; reflexivity. Qed.

Lemma decode_odd_length_fails_witness :
  decodeAudioData required_ranges [Byte.x00; Byte.x80; Byte.x01] 24000 1
  = Err (mkError RangeError "").
Proof. apply decode_odd_length_fails. reflexivity. Defined.

Lemma decode_even_length_witness :
  ∃ buffer,
    decodeAudioData required_ranges
      [Byte.x00; Byte.x80; Byte.xff; Byte.x7f; Byte.x01; Byte.x00] 24000 2
    = Ok buffer ∧ frames buffer = 1.
Proof.
  destruct (decode_even_length required_ranges
              [Byte.x00; Byte.x80; Byte.xff; Byte.x7f; Byte.x01; Byte.x00]
              24000 2) as (buffer & Hb & _ & _ & Hf & _).
  - reflexivity.
  - lia.
  - simpl. lia.
  - reflexivity.
  - exists buffer. split; [exact Hb | exact Hf].
Defined.

End PcmSpec.

(** ** Gemini client *)

Module GeminiSpec.
Import Pcm Gemini Scenario.

Lemma no_candidate_no_audio response :
  no_candidate response → no_inline_audio response.
Proof.
  unfold no_candidate, no_inline_audio, inline_audio.
  intros [-> | ->]; by left.
Qed.

Section Speech.

Variable supports : nat → Z → bool.

(** Whatever goes wrong inside [generateSpeech], the caller sees the same
    error. *)
Theorem generateSpeech_error_uniform env text language e :
  generateSpeech supports env text language = Err e → e = speech_failure.
Proof.
  unfold generateSpeech, try_catch.
  destruct (_ ≫= _); [done|]. by intros [= <-].
Qed.

(** C5.  Whether the provider call errors, the answer has no candidate, or
    it has no inline audio payload, [generateSpeech] rejects, and with the
    same error in the three cases. *)
Theorem generateSpeech_provider_failure env text language :
  (∃ e, generateContent env (tts_request text) = Err e)
  ∨ (∃ response, generateContent env (tts_request text) = Ok response
                 ∧ no_candidate response)
  ∨ (∃ response, generateContent env (tts_request text) = Ok response
                 ∧ no_inline_audio response) →
  generateSpeech supports env text language = Err speech_failure.
Proof.
  intros Hcase.
  assert (∃ e, (_ ← getAI env;
                response ← generateContent env (tts_request text);
                match inline_audio response with
                | Some (String _ _ as base64Audio) =>
                    _ ← newAudioContext env;
                    try_finally
                      (bytes ← decode base64Audio;
                       decodeAudioData supports bytes 24000 1)
                      (closeAudioContext env)
                | _ => throw Error "No audio data returned"
                end) = Err e) as [e He].
  { destruct (getAI env) as [[]|e0]; simpl; [|by eexists].
    destruct Hcase as [[e He] | [(r & Hr & Hc) | (r & Hr & Hc)]].
    - rewrite He. by eexists.
    - rewrite Hr. simpl. apply no_candidate_no_audio in Hc.
      destruct Hc as [-> | ->]; by eexists.
    - rewrite Hr. simpl. destruct Hc as [-> | ->]; by eexists. }
  unfold generateSpeech, tts_request in *. by rewrite He.
Qed.

End Speech.

Lemma toLowerCase_app s t :
  toLowerCase (s +:+ t) = toLowerCase s +:+ toLowerCase t.
Proof. induction s as [|c s IH]; simpl; [done|]. by rewrite IH. Qed.

Lemma prefix_app kw s : String.prefix kw (kw +:+ s) = true.
Proof.
  induction kw as [|c kw IH]; simpl; [by destruct s|].
  destruct (Ascii.ascii_dec c c); [done|congruence].
Qed.

Lemma includes_here kw s : includes (kw +:+ s) kw = true.
Proof.
  destruct kw as [|c kw]; [by destruct s|].
  change (String.prefix (String c kw) (String c kw +:+ s)
          || includes (kw +:+ s) (String c kw) = true).
  by rewrite prefix_app.
Qed.

Lemma includes_later pre s kw :
  includes s kw = true → includes (pre +:+ s) kw = true.
Proof.
  intros H. induction pre as [|c pre IH]; simpl; [done|].
  rewrite IH. apply orb_true_r.
Qed.

Lemma includes_lowered text kw :
  contains_ignoring_case text kw → includes (toLowerCase text) kw = true.
Proof.
  intros (pre & mid & post & -> & <-).
  rewrite !toLowerCase_app. apply includes_later, includes_here.
Qed.

Section Vision.

Variable JSON_parse : string → result ProcessedContent.

(** C10.  Whatever the provider answered, a result of [processImage] whose
    extracted text contains one of the critical keywords, in any letter
    case, has its audit flag set. *)
Theorem processImage_flags_critical env base64Image settings data :
  processImage JSON_parse env base64Image settings = Ok data →
  (∃ kw, kw ∈ CRITICAL_KEYWORDS ∧ contains_ignoring_case (originalText data) kw) →
  requiresAudit data = true.
Proof.
  unfold processImage, try_catch, mbind, result_bind.
  intros Hres (kw & Hkw & Hin).
  destruct base64Image as [base64Image|]; [|done].
  destruct (getAI env) as [[]|]; [|done].
  destruct (generateContent env _) as [response|]; [|done].
  destruct (Gemini.text response) as [[|c text]|]; [done| |done].
  destruct (JSON_parse _) as [parsed|]; [|done].
  assert (existsb (fun kw => includes (toLowerCase (originalText parsed)) kw)
                  CRITICAL_KEYWORDS = true) as Hcrit.
  { assert (originalText data = originalText parsed) as <-.
    { destruct (existsb _ CRITICAL_KEYWORDS); by injection Hres as <-. }
    apply existsb_exists. exists kw. split.
    - by apply list_elem_of_In.
    - by apply includes_lowered. }
  rewrite Hcrit in Hres. by injection Hres as <-.
Qed.

End Vision.

Lemma generateSpeech_provider_failure_witness :
  generateSpeech required_ranges silent_env "Hello world" "Spanish"
  = Err speech_failure.
Proof.
  apply generateSpeech_provider_failure.
  right. right. eexists. split; [reflexivity|]. left. reflexivity.
Defined.

Lemma processImage_flags_critical_witness :
  ∃ data,
    processImage label_parse label_env (Some "") (mkSettings 0 24 DEFAULT "Spanish" false)
    = Ok data ∧ requiresAudit data = true.
Proof.
  eexists. split; [reflexivity|].
  apply (processImage_flags_critical label_parse label_env (Some "")
           (mkSettings 0 24 DEFAULT "Spanish" false)).
  - reflexivity.
  - exists "dosage". split.
    + unfold CRITICAL_KEYWORDS. set_solver.
    + exists "Daily ", "DOSAGE", ": two tablets". split; reflexivity.
Defined.

End GeminiSpec.

(** ** Reader view *)

Module ReaderSpec.
Import Pcm Gemini Reader.

(** *** What [stopAudio] leaves alone *)

Lemma stopAudio_active p s : activeAudioType (stopAudio p s) = None.
Proof. done. Qed.

Lemma stopAudio_source p s : audioSourceRef (stopAudio p s) = None.
Proof.
  unfold stopAudio, stop.
  destruct (audioSourceRef s) eqn:Hs; [|done].
  by destruct (stop_throws p).
Qed.

Lemma stopAudio_frame p s :
  loadingAudioType (stopAudio p s) = loadingAudioType s
  ∧ translatedText (stopAudio p s) = translatedText s
  ∧ currentLanguage (stopAudio p s) = currentLanguage s
  ∧ isTranslating (stopAudio p s) = isTranslating s
  ∧ audioContextRef (stopAudio p s) = audioContextRef s
  ∧ audioCache (stopAudio p s) = audioCache s
  ∧ mounted (stopAudio p s) = mounted s
  ∧ pending (stopAudio p s) = pending s.
Proof.
  unfold stopAudio, stop.
  destruct (audioSourceRef s); [|done].
  by destruct (stop_throws p).
Qed.

Lemma stopAudio_count f p s :
  (∀ id, f (SourceStopped id) = false) →
  count f (effects (stopAudio p s)) = count f (effects s).
Proof.
  intros Hf. unfold stopAudio, stop.
  destruct (audioSourceRef s); [|done].
  destruct (stop_throws p); [done|]. simpl. by rewrite Hf.
Qed.

Lemma stopAudio_stopped p s :
  audioSourceRef s = None → stopAudio p s = setActiveAudioType None s.
Proof. unfold stopAudio. by intros ->. Qed.

(** C9.  A play request with empty text does what [stopAudio] does and
    nothing else: no synthesis call, no failure notice, no load started or
    left pending.  On the card itself the button is disabled, and the click
    changes nothing at all. *)
Theorem handlePlay_empty_text (content : ProcessedContent) (settings : UserSettings)
    (p : Platform) (type : TextType) (s : View) :
  handlePlay settings p type "" s = stopAudio p s
  ∧ speech_calls (handlePlay settings p type "" s) = speech_calls s
  ∧ alerts (handlePlay settings p type "" s) = alerts s
  ∧ loadingAudioType (handlePlay settings p type "" s) = loadingAudioType s
  ∧ pending (handlePlay settings p type "" s) = pending s
  ∧ (card_text content type s = "" → step content settings p (Click type) s = s).
Proof.
  assert (handlePlay settings p type "" s = stopAudio p s) as ->.
  { unfold handlePlay. by case_bool_decide. }
  destruct (stopAudio_frame p s) as (Hl & _ & _ & _ & _ & _ & _ & Hp).
  split; [done|].
  split; [by apply stopAudio_count|].
  split; [by apply stopAudio_count|].
  split; [done|]. split; [done|].
  intros Hempty. unfold step, button_disabled.
  rewrite (bool_decide_true _ Hempty).
  by rewrite orb_true_r, andb_false_r.
Qed.

#[local] Arguments stopAudio : simpl never.

(** *** Requests and their settling *)

Section Requests.

Variable settings : UserSettings.

(** A play request that finds no cached audio asks for synthesis and waits. *)
Lemma handlePlay_miss p type text s :
  text ≠ "" →
  activeAudioType s ≠ Some type →
  audioCache s !! cache_key type (currentLanguage s) = None →
  handlePlay settings p type text s
  = suspend (AwaitSpeech type (cache_key type (currentLanguage s)))
      (log (SpeechRequested text (request_language settings type s))
         (setLoadingAudioType (Some type) (stopAudio p s))).
Proof.
  intros Ht Ha Hc. unfold handlePlay.
  rewrite bool_decide_false by done. rewrite bool_decide_false by done.
  destruct (stopAudio_frame p s) as (_ & _ & Hl & _ & _ & Hcache & _).
  cbn. rewrite Hl, Hcache, Hc.
  unfold request_language. by destruct type; cbn; rewrite ?Hl.
Qed.

(** A play request that finds cached audio goes on with it. *)
Lemma handlePlay_hit p type text buffer s :
  text ≠ "" →
  activeAudioType s ≠ Some type →
  audioCache s !! cache_key type (currentLanguage s) = Some buffer →
  handlePlay settings p type text s
  = with_context p type buffer (setLoadingAudioType (Some type) (stopAudio p s)).
Proof.
  intros Ht Ha Hc. unfold handlePlay.
  rewrite bool_decide_false by done. rewrite bool_decide_false by done.
  destruct (stopAudio_frame p s) as (_ & _ & Hl & _ & _ & Hcache & _).
  cbn. by rewrite Hl, Hcache, Hc.
Qed.

End Requests.

Lemma speech_settled_at p r s l1 l2 type key :
  pending s = l1 ++ AwaitSpeech type key :: l2 →
  speech_settled p (length l1) r s
  = match r with
    | Ok buffer =>
        with_context p type buffer
          (set_audioCache (<[key := buffer]> (audioCache s))
             (set_pending (l1 ++ l2) s))
    | Err _ => play_failed (set_pending (l1 ++ l2) s)
    end.
Proof.
  intros Hp. unfold speech_settled.
  by rewrite Hp, list_lookup_middle, delete_middle.
Qed.

Lemma with_context_frame p type buffer s :
  speech_calls (with_context p type buffer s) = speech_calls s
  ∧ audioCache (with_context p type buffer s) = audioCache s
  ∧ currentLanguage (with_context p type buffer s) = currentLanguage s
  ∧ (∀ source,
       audioSourceRef (with_context p type buffer s) = Some source →
       source_buffer source = buffer ∨ audioSourceRef s = Some source).
Proof.
  unfold with_context, start_source, play_failed, speech_calls.
  destruct (audioContextRef s) as [state|] eqn:Hs.
  - rewrite Hs. case_bool_decide; [by auto|].
    destruct (start_throws p); cbn; split_and!; try done; auto.
    intros source [= <-]. by left.
  - destruct (new_context p) as [state|]; [|by auto].
    cbn. case_bool_decide; [by auto|].
    destruct (start_throws p); cbn; split_and!; try done; auto.
    intros source [= <-]. by left.
Qed.

(** With a context that needs no resuming and a source that starts, the
    variant whose audio arrived is the one playing. *)
Lemma with_context_starts p type buffer s :
  audioContextRef s ≠ Some suspended →
  new_context p = Some running →
  start_throws p = false →
  activeAudioType (with_context p type buffer s) = Some type
  ∧ loadingAudioType (with_context p type buffer s) = None
  ∧ pending (with_context p type buffer s) = pending s
  ∧ audioContextRef (with_context p type buffer s) ≠ Some suspended
  ∧ ∃ id, audioSourceRef (with_context p type buffer s) = Some (mkSource id buffer).
Proof.
  intros Hs Hnew Hstart. unfold with_context, start_source.
  rewrite Hnew, Hstart.
  destruct (audioContextRef s) as [state|] eqn:Hr.
  - rewrite Hr, bool_decide_false by done. cbn. rewrite Hr.
    split_and!; [done..|by eexists].
  - cbn. split_and!; [done..|by eexists].
Qed.

Lemma speech_settled_benign p r s l1 l2 type key :
  pending s = l1 ++ AwaitSpeech type key :: l2 →
  audioContextRef s ≠ Some suspended →
  new_context p = Some running →
  start_throws p = false →
  pending (speech_settled p (length l1) r s) = l1 ++ l2
  ∧ loadingAudioType (speech_settled p (length l1) r s) = None
  ∧ activeAudioType (speech_settled p (length l1) r s)
    = match r with Ok _ => Some type | Err _ => activeAudioType s end
  ∧ audioContextRef (speech_settled p (length l1) r s) ≠ Some suspended.
Proof.
  intros Hp Hs Hnew Hstart. rewrite (speech_settled_at _ _ _ _ _ _ _ Hp).
  destruct r as [buffer|e]; [|done].
  by destruct (with_context_starts p type buffer
              (set_audioCache (<[key := buffer]> (audioCache s))
                 (set_pending (l1 ++ l2) s)) Hs Hnew Hstart)
    as (-> & -> & -> & ? & _).
Qed.

(** C7, amended.  [stopAudio] is a total function of the state: whether or
    not [stop()] throws, it reports nothing and leaves no source and no
    active variant; an exception of [stop()] only means that no stop is
    recorded.  A second call changes nothing more.  It cancels nothing and
    leaves the loading flag alone: the requests that were pending are
    pending still, and afterwards the cards show LOADING where the flag was
    set and IDLE where it was clear (in particular on the view as first
    rendered).  IDLE after a stop does not mean that nothing is in flight:
    a synthesis that is still pending, its flag cleared by another request
    that settled meanwhile, starts playing when it resolves. *)
Theorem stopAudio_idempotent (p p' : Platform) (s : View) :
  activeAudioType (stopAudio p s) = None
  ∧ audioSourceRef (stopAudio p s) = None
  ∧ alerts (stopAudio p s) = alerts s
  ∧ (stop_throws p = true →
     stopAudio p s = setActiveAudioType None (set_audioSourceRef None s))
  ∧ stopAudio p' (stopAudio p s) = stopAudio p s
  ∧ playback (stopAudio p s)
    = match loadingAudioType s with
      | Some v => LOADING v
      | None => IDLE
      end
  ∧ (∀ content settings, playback (stopAudio p (init content settings)) = IDLE)
  ∧ pending (stopAudio p s) = pending s
  ∧ loadingAudioType (stopAudio p s) = loadingAudioType s
  ∧ (∀ l1 l2 type key buffer,
       pending s = l1 ++ AwaitSpeech type key :: l2 →
       audioContextRef s ≠ Some suspended →
       new_context p' = Some running →
       start_throws p' = false →
       playback (speech_settled p' (length l1) (Ok buffer) (stopAudio p s))
       = PLAYING type).
Proof.
  destruct (stopAudio_frame p s) as (Hload & _ & _ & _ & Hctx & _ & _ & Hpend).
  split; [apply stopAudio_active|].
  split; [apply stopAudio_source|].
  split; [by apply stopAudio_count|].
  split.
  { intros Hthrow. unfold stopAudio, stop. rewrite Hthrow.
    destruct (audioSourceRef s) eqn:Hs; [done|]. by destruct s; simplify_eq/=. }
  split.
  { rewrite (stopAudio_stopped p') by apply stopAudio_source.
    unfold stopAudio. destruct (audioSourceRef s); [|done].
    unfold stop. by destruct (stop_throws p). }
  split.
  { unfold playback. by rewrite Hload, stopAudio_active. }
  split; [by intros|].
  split; [done|]. split; [done|].
  intros l1 l2 type key buffer Hp Hs Hnew Hstart.
  destruct (speech_settled_benign p' (Ok buffer) (stopAudio p s) l1 l2 type key)
    as (_ & Hl & Ha & _); [by rewrite Hpend|by rewrite Hctx|done|done|].
  unfold playback. by rewrite Hl, Ha.
Qed.

Section Race.

Variable settings : UserSettings.

(** C1, amended.  The controller has no check against the most recent
    request.  When a play request for A is followed, before its synthesis
    settles, by a play request for B, and both then settle (the context
    needs no resuming and the sources start), the cards show the variant of
    the request that succeeded last: B if B succeeds after A has settled,
    but A if A succeeds after B has settled, or if A succeeded and B then
    failed; IDLE only if both fail. *)
Theorem last_settled_request_plays (p1 p2 p3 p4 : Platform)
    (typeA typeB : TextType) (textA textB : string)
    (rA rB : result AudioBuffer) (s : View) :
  textA ≠ "" → textB ≠ "" →
  activeAudioType s ≠ Some typeA →
  audioCache s !! cache_key typeA (currentLanguage s) = None →
  audioCache s !! cache_key typeB (currentLanguage s) = None →
  audioContextRef s ≠ Some suspended →
  new_context p3 = Some running → start_throws p3 = false →
  new_context p4 = Some running → start_throws p4 = false →
  let k := length (pending s) in
  let s2 := handlePlay settings p2 typeB textB
              (handlePlay settings p1 typeA textA s) in
  playback (speech_settled p4 k rB (speech_settled p3 k rA s2))
  = showing (later_of (started typeA rA) (started typeB rB))
  ∧ playback (speech_settled p4 k rA (speech_settled p3 (S k) rB s2))
    = showing (later_of (started typeB rB) (started typeA rA)).
Proof.
  intros HtA HtB Ha HcA HcB Hctx Hn3 Hs3 Hn4 Hs4 k s2.
  set (keyA := cache_key typeA (currentLanguage s)).
  set (keyB := cache_key typeB (currentLanguage s)).
  destruct (stopAudio_frame p1 s) as (_ & _ & Hl1 & _ & Hr1 & Hc1 & _ & Hp1).
  set (s1 := handlePlay settings p1 typeA textA s).
  assert (s1 = suspend (AwaitSpeech typeA keyA)
                 (log (SpeechRequested textA (request_language settings typeA s))
                    (setLoadingAudioType (Some typeA) (stopAudio p1 s)))) as Hs1
    by by apply handlePlay_miss.
  assert (activeAudioType s1 = None ∧ currentLanguage s1 = currentLanguage s
          ∧ audioCache s1 = audioCache s ∧ audioContextRef s1 = audioContextRef s
          ∧ pending s1 = pending s ++ [AwaitSpeech typeA keyA])
    as (Ha1 & Hl1' & Hc1' & Hr1' & Hp1').
  { rewrite Hs1. cbn. by rewrite Hl1, Hr1, Hc1, Hp1. }
  destruct (stopAudio_frame p2 s1) as (_ & _ & Hl2 & _ & Hr2 & Hc2 & _ & Hp2).
  assert (s2 = suspend (AwaitSpeech typeB keyB)
                 (log (SpeechRequested textB (request_language settings typeB s1))
                    (setLoadingAudioType (Some typeB) (stopAudio p2 s1)))) as Hs2.
  { unfold s2, keyB. rewrite <- Hl1'. apply handlePlay_miss; [done|..].
    - by rewrite Ha1.
    - by rewrite Hc1', Hl1'. }
  assert (activeAudioType s2 = None
          ∧ audioContextRef s2 = audioContextRef s
          ∧ pending s2 = pending s ++ [AwaitSpeech typeA keyA; AwaitSpeech typeB keyB])
    as (Ha2 & Hr2' & Hp2').
  { rewrite Hs2. cbn. rewrite Hr2, Hp2, Hr1', Hp1', <- app_assoc. done. }
  clearbody s2 s1. clear Hs1 Hs2.
  split.
  - (* A settles first *)
    destruct (speech_settled_benign p3 rA s2 (pending s) [AwaitSpeech typeB keyB]
                typeA keyA) as (Hp3 & _ & Ha3 & Hr3); [done|by rewrite Hr2'|done..|].
    fold k in Hp3, Ha3, Hr3.
    destruct (speech_settled_benign p4 rB (speech_settled p3 k rA s2)
                (pending s) [] typeB keyB) as (_ & Hl4 & Ha4 & _); [done..|].
    fold k in Hl4, Ha4. unfold playback. rewrite Hl4, Ha4, Ha3, Ha2.
    by destruct rA, rB.
  - (* B settles first *)
    destruct (speech_settled_benign p3 rB s2 (pending s ++ [AwaitSpeech typeA keyA])
                [] typeB keyB) as (Hp3 & _ & Ha3 & Hr3);
      [by rewrite Hp2', <- app_assoc|by rewrite Hr2'|done..|].
    rewrite length_app, Nat.add_1_r in Hp3, Ha3, Hr3. fold k in Hp3, Ha3, Hr3.
    rewrite app_nil_r in Hp3.
    destruct (speech_settled_benign p4 rA (speech_settled p3 (S k) rB s2)
                (pending s) [] typeA keyA) as (_ & Hl4 & Ha4 & _); [done..|].
    fold k in Hl4, Ha4. unfold playback. rewrite Hl4, Ha4, Ha3, Ha2.
    by destruct rA, rB.
Qed.

(** C6.  The first play request of a variant whose audio is not cached
    calls the synthesis once; when that succeeds the audio is in the cache
    under the variant's key.  The next play request of the same variant and
    text, whether it comes while the audio still plays or after it ended,
    makes no further call, leaves the cached audio in place, and any source
    it starts plays that very buffer; with the earlier playback over, the
    context running and the source starting, it does start one. *)
Theorem second_play_from_cache (p1 p2 p3 : Platform) (type : TextType)
    (text : string) (buffer : AudioBuffer) (s : View) :
  text ≠ "" →
  activeAudioType s ≠ Some type →
  audioCache s !! cache_key type (currentLanguage s) = None →
  let key := cache_key type (currentLanguage s) in
  let s1 := handlePlay settings p1 type text s in
  let s2 := speech_settled p2 (length (pending s)) (Ok buffer) s1 in
  speech_calls s1 = S (speech_calls s)
  ∧ speech_calls s2 = S (speech_calls s)
  ∧ audioCache s2 !! key = Some buffer
  ∧ ∀ s3, s3 = s2 ∨ s3 = setActiveAudioType None s2 →
      let s4 := handlePlay settings p3 type text s3 in
      speech_calls s4 = S (speech_calls s)
      ∧ audioCache s4 !! key = Some buffer
      ∧ (∀ source, audioSourceRef s4 = Some source → source_buffer source = buffer)
      ∧ (activeAudioType s3 = None → audioContextRef s3 = Some running →
         start_throws p3 = false →
         activeAudioType s4 = Some type
         ∧ ∃ id, audioSourceRef s4 = Some (mkSource id buffer)).
Proof.
  intros Ht Ha Hc key s1 s2.
  destruct (stopAudio_frame p1 s) as (_ & _ & Hl1 & _ & _ & Hc1 & _ & Hp1).
  assert (s1 = suspend (AwaitSpeech type key)
                 (log (SpeechRequested text (request_language settings type s))
                    (setLoadingAudioType (Some type) (stopAudio p1 s)))) as Hs1
    by by apply handlePlay_miss.
  assert (speech_calls s1 = S (speech_calls s)) as Hcalls1.
  { rewrite Hs1. unfold speech_calls. cbn. by rewrite stopAudio_count. }
  assert (pending s1 = pending s ++ [AwaitSpeech type key]
          ∧ currentLanguage s1 = currentLanguage s) as [Hp1' Hl1'].
  { rewrite Hs1. cbn. by rewrite Hp1, Hl1. }
  assert (s2 = with_context p2 type buffer
                 (set_audioCache (<[key := buffer]> (audioCache s1))
                    (set_pending (pending s ++ []) s1))) as Hs2
    by apply (speech_settled_at p2 (Ok buffer) s1 (pending s) [] type key Hp1').
  destruct (with_context_frame p2 type buffer
              (set_audioCache (<[key := buffer]> (audioCache s1))
                 (set_pending (pending s ++ []) s1)))
    as (Hcalls2 & Hc2 & Hl2 & _).
  rewrite <- Hs2 in Hcalls2, Hc2, Hl2. cbn in Hcalls2, Hc2, Hl2.
  assert (audioCache s2 !! key = Some buffer) as Hhit
    by by rewrite Hc2, lookup_insert_eq.
  clearbody s1 s2. clear Hs1 Hs2.
  split; [done|]. split; [unfold speech_calls in *; cbn in *; congruence|].
  split; [done|].
  intros s3 Hs3 s4.
  assert (speech_calls s3 = S (speech_calls s) ∧ audioCache s3 = audioCache s2
          ∧ currentLanguage s3 = currentLanguage s) as (Hcalls3 & Hc3 & Hl3).
  { unfold speech_calls in *. cbn in *.
    destruct Hs3 as [-> | ->]; cbn; split_and!; congruence. }
  destruct (stopAudio_frame p3 s3) as (_ & _ & Hl & _ & Hr & Hcache & _).
  destruct (decide (activeAudioType s3 = Some type)) as [Hplaying|Hidle].
  - (* still playing: the request stops it *)
    assert (s4 = stopAudio p3 s3) as ->
      by (unfold s4, handlePlay; by rewrite bool_decide_true).
    split; [unfold speech_calls; by rewrite stopAudio_count|].
    split; [by rewrite Hcache, Hc3|].
    split; [by rewrite stopAudio_source|].
    intros Hnone. by rewrite Hnone in Hplaying.
  - assert (s4 = with_context p3 type buffer
                   (setLoadingAudioType (Some type) (stopAudio p3 s3))) as ->.
    { apply handlePlay_hit; [done..|]. by rewrite Hl3, Hc3. }
    destruct (with_context_frame p3 type buffer
                (setLoadingAudioType (Some type) (stopAudio p3 s3)))
      as (-> & -> & _ & Hsrc).
    split.
    { unfold speech_calls in *. cbn. by rewrite stopAudio_count. }
    split; [cbn; by rewrite Hcache, Hc3|].
    split.
    { intros source Hsource. destruct (Hsrc source Hsource) as [|Hold]; [done|].
      cbn in Hold. by rewrite stopAudio_source in Hold. }
    intros _ Hrun Hstart.
    unfold with_context, start_source. cbn.
    repeat (progress (rewrite ?Hr, ?Hrun, ?Hstart; cbn)).
    split; [done|by eexists].
Qed.

End Race.

(** *** The output context *)

Lemma context_step_kept s s' :
  audioContextRef s' = audioContextRef s → mounted s' = mounted s →
  contexts_created s' = contexts_created s →
  contexts_closed s' = contexts_closed s →
  context_step s s'.
Proof.
  intros Hr Hm Hc Hcl. unfold context_step. rewrite Hr.
  by destruct (audioContextRef s).
Qed.

Lemma context_step_trans s1 s2 s3 :
  context_step s1 s2 → context_step s2 s3 → context_step s1 s3.
Proof.
  unfold context_step. intros (Hcl1 & Hm1 & H1) (Hcl2 & Hm2 & H2).
  split; [congruence|]. split; [congruence|].
  destruct (audioContextRef s1), (audioContextRef s2), (audioContextRef s3);
    try done; congruence.
Qed.

Lemma stopAudio_context_step p s : context_step s (stopAudio p s).
Proof.
  destruct (stopAudio_frame p s) as (_ & _ & _ & _ & Hr & _ & Hm & _).
  apply context_step_kept; [done|done|by apply stopAudio_count..].
Qed.

Lemma start_source_context_step p type buffer s :
  context_step s (start_source p type buffer s).
Proof.
  unfold start_source. by destruct (start_throws p); apply context_step_kept.
Qed.

Lemma with_context_context_step p type buffer s :
  context_step s (with_context p type buffer s).
Proof.
  unfold with_context.
  destruct (audioContextRef s) as [state|] eqn:Hr.
  - rewrite Hr. case_bool_decide; [by apply context_step_kept|].
    apply start_source_context_step.
  - destruct (new_context p) as [state|]; [|by apply context_step_kept].
    eapply context_step_trans with
      (s2 := set_audioContextRef (Some state) (log ContextCreated s)).
    { unfold context_step. by rewrite Hr. }
    simpl. case_bool_decide; [by apply context_step_kept|].
    apply start_source_context_step.
Qed.

Section Lifecycle.

Variable content : ProcessedContent.
Variable settings : UserSettings.

Lemma handlePlay_context_step p type text s :
  context_step s (handlePlay settings p type text s).
Proof.
  unfold handlePlay.
  case_bool_decide; [apply stopAudio_context_step|].
  eapply context_step_trans; [apply (stopAudio_context_step p)|].
  case_bool_decide; [by apply context_step_kept|].
  eapply context_step_trans with
    (s2 := setLoadingAudioType (Some type) (stopAudio p s));
    [by apply context_step_kept|].
  destruct (audioCache _ !! _).
  - apply with_context_context_step.
  - by apply context_step_kept.
Qed.

Lemma speech_settled_context_step p k r s :
  context_step s (speech_settled p k r s).
Proof.
  unfold speech_settled.
  destruct (pending s !! k) as [[type key|?|]|]; try by apply context_step_kept.
  destruct r as [buffer|e]; [|by apply context_step_kept].
  eapply context_step_trans; [|apply with_context_context_step].
  by apply context_step_kept.
Qed.

Lemma resume_settled_context_step p k r s :
  context_step s (resume_settled p k r s).
Proof.
  unfold resume_settled.
  destruct (pending s !! k) as [[?|type buffer|]|]; try by apply context_step_kept.
  destruct r as [[]|e]; [|by apply context_step_kept].
  eapply context_step_trans; [|apply start_source_context_step].
  case_bool_decide as Hs; [|by apply context_step_kept].
  unfold context_step. simpl in *. by rewrite Hs.
Qed.

Lemma handleLanguageChange_context_step p newLang s :
  context_step s (handleLanguageChange content p newLang s).
Proof.
  unfold handleLanguageChange.
  eapply context_step_trans with
    (s2 := stopAudio p (setIsTranslating true (setCurrentLanguage newLang s))).
  - eapply context_step_trans; [|apply stopAudio_context_step].
    by apply context_step_kept.
  - by apply context_step_kept.
Qed.

Lemma translate_settled_context_step k r s :
  context_step s (translate_settled k r s).
Proof.
  unfold translate_settled.
  destruct (pending s !! k) as [[?|?|]|]; try by apply context_step_kept.
  destruct r as [newText|e]; [|by apply context_step_kept].
  simpl. by destruct (audioCache s !! "translated"); apply context_step_kept.
Qed.

Lemma step_context_step p e s :
  e ≠ Unmount → context_step s (step content settings p e s).
Proof.
  intros He. destruct e; [..|done]; simpl.
  - destruct (_ && _); [apply handlePlay_context_step|by apply context_step_kept].
  - destruct (mounted s);
      [apply handleLanguageChange_context_step|by apply context_step_kept].
  - apply speech_settled_context_step.
  - apply resume_settled_context_step.
  - apply translate_settled_context_step.
  - by apply context_step_kept.
  - case_bool_decide as Hs; [|by apply context_step_kept].
    unfold context_step. simpl. by rewrite Hs.
Qed.



Lemma run_app tr tr' s :
  run content settings (tr ++ tr') s
  = run content settings tr' (run content settings tr s).
Proof. apply foldl_app. Qed.



(** Once the view is gone nothing closes a context any more. *)
Lemma run_unmounted_closed tr s :
  mounted s = false →
  contexts_closed (run content settings tr s) = contexts_closed s.
Proof.
  revert s. induction tr as [|[p e] tr IH]; intros s Hm; [done|].
  assert (mounted (step content settings p e s) = false
          ∧ contexts_closed (step content settings p e s) = contexts_closed s)
    as [Hm' Hcl].
  { destruct e;
      lazymatch goal with
      | |- context [Unmount] => simpl; by rewrite Hm
      | |- context [step _ _ _ ?e _] =>
          destruct (step_context_step p e s) as (Hcl & Hm' & _);
          [done|split; congruence]
      end. }
  simpl. by rewrite IH.
Qed.




End Lifecycle.

(** *** The cache and the language menu *)

Lemma cache_key_not_bare type lang : cache_key type lang ≠ "translated".
Proof. by destruct type. Qed.

Section Cache.

Variable content : ProcessedContent.
Variable settings : UserSettings.

Lemma with_context_keys p type buffer s :
  keys_inv s → keys_inv (with_context p type buffer s).
Proof.
  intros [Hc Hp]. unfold with_context, start_source, play_failed.
  assert (∀ s', audioCache s' = audioCache s → pending s' = pending s →
            keys_inv (if bool_decide (audioContextRef s' = Some suspended)
                      then suspend (AwaitResume type buffer) (log ContextResumed s')
                      else if start_throws p
                           then setLoadingAudioType None
                                  (log (Alerted "Could not play audio. Please check connection.") s')
                           else setLoadingAudioType None
                                  (setActiveAudioType (Some type)
                                     (set_audioSourceRef
                                        (Some (mkSource (length (effects s')) buffer))
                                        (log (SourceStarted (length (effects s')) type buffer) s')))))
    as Hgo.
  { intros s' Hc' Hp'. case_bool_decide.
    - split; cbn; [by rewrite Hc'|]. rewrite Hp'.
      intros t key [Hin|Hin]%elem_of_app; [by eapply Hp|].
      by apply list_elem_of_singleton in Hin.
    - destruct (start_throws p); split; cbn; rewrite ?Hc', ?Hp'; done. }
  destruct (audioContextRef s) as [state|]; [by apply Hgo|].
  destruct (new_context p) as [state|]; [by apply Hgo|done].
Qed.

Lemma step_keys p e s :
  keys_inv s → keys_inv (step content settings p e s).
Proof.
  intros [Hc Hp].
  destruct (stopAudio_frame p s) as (_ & _ & Hl & _ & _ & Hcache & _ & Hpend).
  destruct e as [type|newLang|k r|k r|k r| | |]; simpl.
  - destruct (_ && _); [|done]. unfold handlePlay.
    case_bool_decide; [by split; rewrite ?Hcache, ?Hpend|].
    case_bool_decide; [by split; rewrite ?Hcache, ?Hpend|].
    cbn. destruct (audioCache (stopAudio p s) !! _).
    + apply with_context_keys. by split; cbn; rewrite ?Hcache, ?Hpend.
    + split; cbn; [by rewrite Hcache|]. rewrite Hpend.
      intros t key [Hin|Hin]%elem_of_app; [by eapply Hp|].
      apply list_elem_of_singleton in Hin. injection Hin as -> ->.
      apply cache_key_not_bare.
  - destruct (mounted s); [|done]. unfold handleLanguageChange.
    destruct (stopAudio_frame p (setIsTranslating true (setCurrentLanguage newLang s)))
      as (_ & _ & _ & _ & _ & Hcache' & _ & Hpend').
    split; cbn; [by rewrite Hcache'|]. rewrite Hpend'. cbn.
    intros t key [Hin|Hin]%elem_of_app; [by eapply Hp|].
    by apply list_elem_of_singleton in Hin.
  - unfold speech_settled.
    destruct (pending s !! k) as [[type key|?|]|] eqn:Hk; try done.
    assert (key ≠ "translated") as Hkey
      by (eapply Hp, list_elem_of_lookup_2, Hk).
    assert (∀ t key', AwaitSpeech t key' ∈ delete k (pending s) → key' ≠ "translated")
      as Hp'.
    { intros t key' Hin. eapply Hp, list_elem_of_delete_inv, Hin. }
    destruct r as [buffer|e]; [|done].
    apply with_context_keys. split; cbn; [by rewrite lookup_insert_ne|done].
  - unfold resume_settled.
    destruct (pending s !! k) as [[?|type buffer|]|] eqn:Hk; try done.
    assert (∀ t key', AwaitSpeech t key' ∈ delete k (pending s) → key' ≠ "translated")
      as Hp'.
    { intros t key' Hin. eapply Hp, list_elem_of_delete_inv, Hin. }
    destruct r as [[]|e]; [|done].
    unfold start_source. case_bool_decide; by destruct (start_throws p).
  - unfold translate_settled.
    destruct (pending s !! k) as [[?|?|]|] eqn:Hk; try done.
    assert (∀ t key', AwaitSpeech t key' ∈ delete k (pending s) → key' ≠ "translated")
      as Hp'.
    { intros t key' Hin. eapply Hp, list_elem_of_delete_inv, Hin. }
    destruct r as [newText|e]; [|done].
    cbn. by rewrite Hc.
  - done.
  - by case_bool_decide.
  - destruct (mounted s); [|done]. unfold cleanup.
    destruct (audioContextRef (stopAudio p s)); by split; cbn; rewrite ?Hcache, ?Hpend.
Qed.

Lemma run_keys tr s :
  keys_inv s → keys_inv (run content settings tr s).
Proof.
  revert s. induction tr as [|[p e] tr IH]; intros s Hs; [done|].
  simpl. by apply IH, step_keys.
Qed.

(** On every run of the view, choosing a language and the arrival of the
    new translation leave the cache exactly as it was: the entry the handler
    deletes does not exist. *)
Lemma language_change_keeps_cache tr p newLang k r :
  let s := run content settings tr (init content settings) in
  audioCache (step content settings p (SelectLanguage newLang) s) = audioCache s
  ∧ audioCache (step content settings p (TranslateSettled k r) s) = audioCache s.
Proof.
  intros s.
  assert (keys_inv s) as [Hc _].
  { apply run_keys. split; [done|]. intros type key Hin. by apply elem_of_nil in Hin. }
  split; simpl.
  - destruct (mounted s); [|done]. unfold handleLanguageChange. cbn.
    by destruct (stopAudio_frame p (setIsTranslating true (setCurrentLanguage newLang s)))
      as (_ & _ & _ & _ & _ & -> & _).
  - unfold translate_settled.
    destruct (pending s !! k) as [[?|?|]|]; try done.
    destruct r as [newText|e]; [|done]. cbn. by rewrite Hc.
Qed.

(** So the audio cached for the original and the simplified text is still
    found after a language change, and playing a variant whose audio is
    found calls no synthesis. *)
Lemma language_change_spares_other_variants tr p p' newLang k r type :
  type ≠ translated →
  let s := run content settings tr (init content settings) in
  let s' := step content settings p' (TranslateSettled k r)
              (step content settings p (SelectLanguage newLang) s) in
  audioCache s' !! cache_key type (currentLanguage s')
  = audioCache s !! cache_key type (currentLanguage s).
Proof.
  intros Htype s s'.
  destruct (language_change_keeps_cache tr p newLang k r) as [Hsel _].
  destruct (language_change_keeps_cache (tr ++ [(p, SelectLanguage newLang)])
              p' newLang k r) as [_ Hset].
  rewrite run_app in Hset. cbn [run foldl fst snd] in Hset.
  fold (run content settings tr (init content settings)) in Hset.
  fold s in Hsel, Hset.
  assert (audioCache s' = audioCache s) as -> by (unfold s'; by rewrite Hset, Hsel).
  by destruct type.
Qed.

(** The entry [handleLanguageChange] deletes is never there: on every run
    of the view the bare key is unused, and the arrival of a new
    translation leaves every cached buffer in place. *)
Theorem language_change_deletes_nothing tr p k r key :
  let s := run content settings tr (init content settings) in
  audioCache s !! "translated" = None
  ∧ audioCache (step content settings p (TranslateSettled k r) s) !! key
    = audioCache s !! key.
Proof.
  intros s. split.
  - assert (keys_inv s) as [Hc _]; [|done].
    apply run_keys. split; [done|]. intros type key' Hin.
    by apply elem_of_nil in Hin.
  - destruct (language_change_keeps_cache tr p "" k r) as [_ Hset].
    fold s in Hset. by rewrite Hset.
Qed.

Lemma cached_variant_needs_no_synthesis p type text buffer s :
  audioCache s !! cache_key type (currentLanguage s) = Some buffer →
  speech_calls (handlePlay settings p type text s) = speech_calls s.
Proof.
  intros Hhit. unfold handlePlay, speech_calls.
  destruct (stopAudio_frame p s) as (_ & _ & Hl & _ & _ & Hcache & _).
  case_bool_decide; [by apply stopAudio_count|].
  case_bool_decide; [by apply stopAudio_count|].
  cbn. rewrite Hl, Hcache, Hhit.
  destruct (with_context_frame p type buffer
              (setLoadingAudioType (Some type) (stopAudio p s))) as (Hcalls & _).
  unfold speech_calls in Hcalls. rewrite Hcalls. cbn. by apply stopAudio_count.
Qed.

End Cache.

End ReaderSpec.

Module ScenarioSpec.
Import Pcm Gemini Reader ReaderSpec Scenario.

(** C1, as stated, fails: both clicks are taken (two synthesis calls), the
    request for the simplified text is the most recent one, and once both
    syntheses have settled the cards show the original text playing. *)
Lemma stale_result_resumes_playback :
  speech_calls (run page prefs overtaken (init page prefs)) = 2
  ∧ pending (run page prefs overtaken (init page prefs)) = []
  ∧ playback (run page prefs overtaken (init page prefs)) = PLAYING original.
Proof. by vm_compute. Qed.

Lemma last_settled_request_plays_witness :
  playback
    (speech_settled calm 0 (Ok (tone 2))
       (speech_settled calm 0 (Ok (tone 1))
          (handlePlay prefs calm simplified "Keep away"
             (handlePlay prefs calm original "Keep out of reach" (init page prefs)))))
  = PLAYING simplified
  ∧ playback
      (speech_settled calm 0 (Ok (tone 1))
         (speech_settled calm 1 (Ok (tone 2))
            (handlePlay prefs calm simplified "Keep away"
               (handlePlay prefs calm original "Keep out of reach" (init page prefs)))))
    = PLAYING original.
Proof.
  apply (last_settled_request_plays prefs calm calm calm calm
           original simplified "Keep out of reach" "Keep away"
           (Ok (tone 1)) (Ok (tone 2)) (init page prefs));
    by vm_compute.
Defined.

Lemma second_play_from_cache_witness :
  speech_calls
    (handlePlay prefs calm original "Keep out of reach"
       (setActiveAudioType None
          (speech_settled calm 0 (Ok (tone 1))
             (handlePlay prefs calm original "Keep out of reach" (init page prefs)))))
  = 1.
Proof.
  destruct (second_play_from_cache prefs calm calm calm original
              "Keep out of reach" (tone 1) (init page prefs))
    as (_ & _ & _ & Hnext); [by vm_compute..|].
  destruct (Hnext _ (or_intror eq_refl)) as (Hcalls & _).
  exact Hcalls.
Defined.

(** C2 at the failing input.  After Spanish, French, Spanish the view shows
    the new Spanish text, and the play request that follows makes no
    synthesis call: it starts the audio that was made for the first Spanish
    text. *)
Lemma revisited_language_replays_old_audio :
  currentLanguage (run page prefs revisit (init page prefs)) = "Spanish"
  ∧ translatedText (run page prefs revisit (init page prefs)) = "Mantengase lejos"
  ∧ playback (run page prefs revisit (init page prefs)) = IDLE
  ∧ speech_calls (step page prefs calm (Click translated)
                    (run page prefs revisit (init page prefs)))
    = speech_calls (run page prefs revisit (init page prefs))
  ∧ source_buffer
      <$> audioSourceRef (step page prefs calm (Click translated)
                            (run page prefs revisit (init page prefs)))
    = Some (tone 1)
  ∧ playback (step page prefs calm (Click translated)
                (run page prefs revisit (init page prefs)))
    = PLAYING translated.
Proof. by vm_compute. Qed.

(** One run through a reading session: one synthesis call for two
    playbacks, one context made and, at the teardown, closed. *)
Lemma full_session_counts :
  speech_calls (run page prefs full_session (init page prefs)) = 1
  ∧ contexts_created (run page prefs full_session (init page prefs)) = 1
  ∧ contexts_closed (run page prefs full_session (init page prefs)) = 1
  ∧ audioContextRef (run page prefs full_session (init page prefs)) = Some closed.
Proof. by vm_compute. Qed.

(** C7, as stated, fails while a load is in flight: nothing was ever
    played, and after two calls of [stopAudio] the card still shows the
    load. *)
Lemma stop_leaves_load_in_flight :
  audioSourceRef (handlePlay prefs calm original "Keep out of reach" (init page prefs))
  = None
  ∧ playback
      (stopAudio calm
         (stopAudio calm
            (handlePlay prefs calm original "Keep out of reach" (init page prefs))))
    = LOADING original.
Proof. by vm_compute. Qed.

(** After a stop the cards can show IDLE while a synthesis is still
    awaited, and playback starts when it resolves. *)
Lemma stop_shows_idle_with_synthesis_pending :
  pending (run page prefs outpaced (init page prefs))
  = [AwaitSpeech original "original"]
  ∧ playback (run page prefs outpaced (init page prefs)) = PLAYING simplified
  ∧ playback (stopAudio calm (run page prefs outpaced (init page prefs))) = IDLE
  ∧ playback
      (speech_settled calm 0 (Ok (tone 1))
         (stopAudio calm (run page prefs outpaced (init page prefs))))
    = PLAYING original.
Proof. by vm_compute. Qed.


(** Nor does anything that happens later close it. *)
Lemma late_context_stays_open tr :
  contexts_closed
    (run page prefs tr (run page prefs left_early (init page prefs))) = 0.
Proof. by rewrite run_unmounted_closed. Qed.

Lemma generateSpeech_error_uniform_witness :
  mkError Error "Failed to generate speech." = speech_failure.
Proof.
  apply (GeminiSpec.generateSpeech_error_uniform required_ranges silent_env
           "Hello world" "Spanish").
  reflexivity.
Defined.

End ScenarioSpec.

(** ** More on the Gemini client *)

Module GeminiMore.
Import Pcm Gemini Config Scenario Sessions.

(** *** [getApiKey] *)

(** [getApiKey] finds no key exactly when each of the four places is
    missing or empty, and [getAI] then refuses; otherwise the key is the
    first non-empty one in the order VITE, REACT_APP, process, window. *)
Theorem getApiKey_priority (src : KeySources) :
  (getApiKey src = "" ↔
     truthy (VITE_API_KEY src) = false ∧ truthy (REACT_APP_API_KEY src) = false
     ∧ truthy (process_API_KEY src) = false ∧ truthy (window_API_KEY src) = false)
  ∧ (∀ provider context,
       getApiKey src = "" ↔
       getAI (env_of src provider context) = throw Error missing_key_message)
  ∧ (∀ key, key ≠ "" →
       (VITE_API_KEY src = Some key → getApiKey src = key)
       ∧ (truthy (VITE_API_KEY src) = false →
          REACT_APP_API_KEY src = Some key → getApiKey src = key)
       ∧ (truthy (VITE_API_KEY src) = false →
          truthy (REACT_APP_API_KEY src) = false →
          process_API_KEY src = Some key → getApiKey src = key)
       ∧ (truthy (VITE_API_KEY src) = false →
          truthy (REACT_APP_API_KEY src) = false →
          truthy (process_API_KEY src) = false →
          window_API_KEY src = Some key → getApiKey src = key)).
Proof.
  destruct src as [[[|? ?]|] [[|? ?]|] [[|? ?]|] [[|? ?]|]]; cbn.
  all: split; [split; [intros; try done; by repeat split|by intros (? & ? & ? & ?)]|].
  all: split;
    [intros provider context; unfold getAI, env_of, getApiKey; cbn;
     split; [intros; try done|try done] |].
  all: try (intros key Hkey; repeat split; intros; simplify_eq; done).
Qed.

(** *** [generateSpeech] *)

Section Mono.

Variable supports : nat → Z → bool.

Lemma fill_channel_mono dataInt16 :
  fill_channel dataInt16 1
    (inject_Z (Z.of_nat (length dataInt16)) / inject_Z (Z.of_nat 1)) 0
    (replicate (length dataInt16) (Fin 0))
  = (fun v => Fin (inject_Z v / 32768)) <$> dataInt16.
Proof.
  unfold fill_channel. apply list_eq. intros i.
  pose proof (PcmSpec.frame_count_ceiling (length dataInt16) 1) as Hceil.
  rewrite Nat.div_1_r in Hceil.
  destruct (decide (i < length dataInt16)) as [Hi|Hi].
  - rewrite PcmSpec.stores_lookup; [|lia|by rewrite length_replicate].
    rewrite list_lookup_fmap. unfold sample.
    replace (i * 1 + 0) with i by lia.
    destruct (lookup_lt_is_Some_2 dataInt16 i Hi) as [v Hv]. by rewrite Hv.
  - rewrite !lookup_ge_None_2; [done|..].
    + rewrite length_fmap. lia.
    + rewrite PcmSpec.stores_length, length_replicate. lia.
Qed.

(** What [decodeAudioData] does with one channel, case by case. *)
Lemma decodeAudioData_mono data rate :
  decodeAudioData supports data rate 1
  = if Nat.even (length data)
    then if (length data / 2 =? 0) || negb (supports 1 rate)
         then throw NotSupportedError ""
         else Ok (mono_buffer rate data)
    else throw RangeError "".
Proof.
  unfold decodeAudioData, Int16Array.
  destruct (Nat.even (length data)); [|done]. cbn [mbind result_bind].
  unfold createBuffer, mono_buffer.
  rewrite PcmSpec.frame_count_floor, Nat.div_1_r.
  rewrite <- (PcmSpec.length_int16_view data).
  change (1 =? 0) with false. cbn [orb].
  destruct ((length (int16_view data) =? 0) || negb (supports 1 rate)); [done|].
  cbn [mbind result_bind]. unfold fill_buffer.
  cbn [channelData numberOfChannels frames sampleRate replicate seq foldl
       lookup list_lookup insert list_insert].
  by rewrite fill_channel_mono.
Qed.

(** Every buffer [generateSpeech] returns is the mono buffer, at 24000 Hz,
    of the bytes the inline payload of the answer decodes to: it has one
    channel and at least one frame, half as many frames as the payload has
    bytes, and every sample is a finite number in [-1, 1]. *)
Theorem generateSpeech_returns_mono env text language buffer :
  generateSpeech supports env text language = Ok buffer →
  ∃ response base64Audio bytes,
    generateContent env (tts_request text) = Ok response
    ∧ inline_audio response = Some base64Audio
    ∧ decode base64Audio = Ok bytes
    ∧ buffer = mono_buffer 24000 bytes
    ∧ numberOfChannels buffer = 1
    ∧ sampleRate buffer = 24000%Z
    ∧ 1 ≤ frames buffer
    ∧ 2 * frames buffer = length bytes
    ∧ ∀ samples x, samples ∈ channelData buffer → x ∈ samples →
        ∃ q, x = Fin q ∧ (-1 <= q <= 1)%Q.
Proof.
  unfold generateSpeech, try_catch, try_finally, mbind, result_bind, tts_request.
  intros Hres.
  destruct (getAI env) as [[]|]; [|done].
  destruct (generateContent env _) as [response|]; [|done].
  destruct (inline_audio response) as [[|c b64]|] eqn:Haudio; [done| |done].
  destruct (newAudioContext env) as [[]|]; [|done].
  destruct (closeAudioContext env) as [[]|]; [|done].
  destruct (decode (String c b64)) as [bytes|] eqn:Hbytes; [|done].
  rewrite decodeAudioData_mono in Hres.
  destruct (Nat.even (length bytes)) eqn:Heven; [|done].
  destruct (Nat.eqb_spec (length bytes / 2) 0) as [|Hframes]; [done|].
  destruct (supports 1 24000); [|done].
  injection Hres as <-.
  exists response, (String c b64), bytes.
  split_and!; try done.
  - unfold mono_buffer. cbn [frames]. lia.
  - unfold mono_buffer. cbn [frames]. apply Nat.even_spec in Heven as [k ->].
    rewrite (Nat.mul_comm 2 k), Nat.div_mul by lia. lia.
  - intros samples x Hs%list_elem_of_singleton Hx. subst samples.
    apply list_elem_of_fmap in Hx as (v & -> & Hv).
    eexists. split; [done|].
    apply PcmSpec.normalised_range.
    apply list_elem_of_lookup in Hv as [k Hk].
    assert (k < length bytes / 2) as Hlt.
    { rewrite <- PcmSpec.length_int16_view. by eapply lookup_lt_Some. }
    destruct (PcmSpec.int16_view_lookup bytes k Hlt) as (lo & hi & _ & _ & Hv').
    rewrite Hk in Hv'. injection Hv' as ->. apply PcmSpec.int16_le_range.
Qed.

(** [generateSpeech] succeeds whenever a key is configured, the answer
    carries a non-empty inline payload that is base64 for an even, non-zero
    number of bytes, the browser grants a context and supports mono buffers
    at 24000 Hz, and the context closes again; sample [i] is then the
    little-endian 16-bit value of bytes [2i] and [2i + 1], divided by 32768.
    When [close()] rejects instead, the decoded buffer is dropped and the
    call fails with the error of every other failure. *)
Theorem generateSpeech_succeeds env text language response base64Audio bytes :
  API_KEY env ≠ "" →
  generateContent env (tts_request text) = Ok response →
  inline_audio response = Some base64Audio →
  newAudioContext env = Ok tt →
  decode base64Audio = Ok bytes →
  Nat.even (length bytes) = true →
  bytes ≠ [] →
  supports 1 24000 = true →
  generateSpeech supports env text language
  = match closeAudioContext env with
    | Ok _ => Ok (mono_buffer 24000 bytes)
    | Err _ => Err speech_failure
    end
  ∧ ∀ i, i < length bytes / 2 →
      ∃ lo hi samples,
        bytes !! (2 * i) = Some lo ∧ bytes !! (2 * i + 1) = Some hi
        ∧ channelData (mono_buffer 24000 bytes) !! 0 = Some samples
        ∧ samples !! i = Some (Fin (inject_Z (int16_le lo hi) / 32768)).
Proof.
  intros Hkey Hresp Haudio Hctx Hbytes Heven Hne Hsup. split.
  - unfold generateSpeech, try_catch, try_finally, mbind, result_bind, getAI.
    rewrite bool_decide_false by done.
    unfold tts_request in Hresp. rewrite Hresp, Haudio.
    assert (base64Audio ≠ "") as Hb64.
    { intros ->. cbv in Hbytes. by injection Hbytes as <-. }
    destruct base64Audio as [|c b64]; [done|].
    rewrite Hctx. destruct (closeAudioContext env) as [[]|]; [|done].
    rewrite Hbytes, decodeAudioData_mono, Heven, Hsup.
    destruct (Nat.eqb_spec (length bytes / 2) 0) as [Hz|]; [|done].
    destruct bytes as [|b0 [|b1 rest]]; [done|done|].
    cbn [length] in Hz.
    replace (S (S (length rest))) with (length rest + 1 * 2) in Hz by lia.
    rewrite Nat.div_add in Hz by lia. lia.
  - intros i Hi.
    destruct (PcmSpec.int16_view_lookup bytes i Hi) as (lo & hi & Hlo & Hhi & Hv).
    exists lo, hi. eexists. split_and!; [done|done|done|].
    by rewrite list_lookup_fmap, Hv.
Qed.

(** Without a configured key none of the three services reaches the
    provider: whatever it would answer, speech and translation reject with
    their fixed errors and [processImage], for an image that is a string,
    with the configuration message behind its prefix.  Handed [null], as
    after a failed file read, [processImage] rejects with the engine's
    [TypeError] as it is, here as with a key. *)
Theorem missing_key_rejects JSON_parse src env text language base64Image settings :
  getApiKey src = "" →
  API_KEY env = getApiKey src →
  generateSpeech supports env text language = Err speech_failure
  ∧ translateText env text language = Err translation_failure
  ∧ processImage JSON_parse env (Some base64Image) settings
    = Err (mkError Error ("Failed to process image. " +:+ missing_key_message))
  ∧ processImage JSON_parse env None settings
    = Err (mkError TypeError (nullMessage env)).
Proof.
  intros Hnone Hkey. rewrite Hnone in Hkey.
  unfold generateSpeech, translateText, processImage, try_catch, mbind,
    result_bind, getAI.
  by rewrite Hkey, (bool_decide_true _ eq_refl).
Qed.

End Mono.

Lemma generateSpeech_returns_mono_witness :
  generateSpeech required_ranges speaking_env "Hello" "Spanish"
  = Ok (mono_buffer 24000 two_samples)
  ∧ ∃ response base64Audio bytes,
      generateContent speaking_env (tts_request "Hello") = Ok response
      ∧ inline_audio response = Some base64Audio
      ∧ decode base64Audio = Ok bytes
      ∧ mono_buffer 24000 two_samples = mono_buffer 24000 bytes
      ∧ numberOfChannels (mono_buffer 24000 two_samples) = 1
      ∧ sampleRate (mono_buffer 24000 two_samples) = 24000%Z
      ∧ 1 ≤ frames (mono_buffer 24000 two_samples)
      ∧ 2 * frames (mono_buffer 24000 two_samples) = length bytes
      ∧ ∀ samples x,
          samples ∈ channelData (mono_buffer 24000 two_samples) →
          x ∈ samples → ∃ q, x = Fin q ∧ (-1 <= q <= 1)%Q.
Proof.
  split; [reflexivity|].
  apply (generateSpeech_returns_mono required_ranges speaking_env "Hello" "Spanish").
  reflexivity.
Defined.

Lemma generateSpeech_succeeds_witness :
  generateSpeech required_ranges speaking_env "Hello" "Spanish"
  = Ok (mono_buffer 24000 two_samples)
  ∧ ∀ i, i < length two_samples / 2 →
      ∃ lo hi samples,
        two_samples !! (2 * i) = Some lo ∧ two_samples !! (2 * i + 1) = Some hi
        ∧ channelData (mono_buffer 24000 two_samples) !! 0 = Some samples
        ∧ samples !! i = Some (Fin (inject_Z (int16_le lo hi) / 32768)).
Proof.
  apply (generateSpeech_succeeds required_ranges speaking_env "Hello" "Spanish"
           (mkResponse
              (Some [mkCandidate
                       (Some (mkParts (Some [mkPart (Some (mkBlob (Some "AAD/fw==")))])))])
              None)
           "AAD/fw==" two_samples).
  - discriminate.
  - reflexivity.
  - reflexivity.
  - reflexivity.
  - reflexivity.
  - reflexivity.
  - discriminate.
  - reflexivity.
Defined.

Lemma missing_key_rejects_witness :
  getApiKey no_key = ""
  ∧ generateSpeech required_ranges (env_of no_key (generateContent speaking_env) (Ok tt))
      "Hello" "Spanish" = Err speech_failure
  ∧ translateText (env_of no_key (generateContent speaking_env) (Ok tt))
      "Hello" "Spanish" = Err translation_failure
  ∧ processImage label_parse (env_of no_key (generateContent speaking_env) (Ok tt))
      (Some "") prefs
    = Err (mkError Error ("Failed to process image. " +:+ missing_key_message))
  ∧ processImage label_parse (env_of no_key (generateContent speaking_env) (Ok tt))
      None prefs
    = Err (mkError TypeError null_replace).
Proof.
  split; [reflexivity|].
  apply (missing_key_rejects required_ranges label_parse no_key
           (env_of no_key (generateContent speaking_env) (Ok tt))
           "Hello" "Spanish" "" prefs).
  - reflexivity.
  - reflexivity.
Defined.

(** *** [decode] *)

Lemma quads_ind {A} (P : list A → Prop) :
  P [] → (∀ a, P [a]) → (∀ a b, P [a; b]) → (∀ a b c, P [a; b; c]) →
  (∀ a b c d rest, P rest → P (a :: b :: c :: d :: rest)) →
  ∀ l, P l.
Proof.
  intros H0 H1 H2 H3 H4 l.
  cut (P l ∧ (∀ a, P (a :: l)) ∧ (∀ a b, P (a :: b :: l))
       ∧ (∀ a b c, P (a :: b :: c :: l))); [tauto|].
  induction l as [|x l (IH0 & IH1 & IH2 & IH3)]; [done|].
  split_and!; auto.
Qed.

Lemma length_sextets_to_chars l :
  length (sextets_to_chars l) = 3 * length l / 4.
Proof.
  induction l as [| | | |a b c d rest IH] using quads_ind; try done.
  cbn [sextets_to_chars length]. rewrite IH.
  replace (3 * S (S (S (S (length rest))))) with (3 * length rest + 3 * 4) by lia.
  rewrite Nat.div_add by lia. lia.
Qed.

(** [decode] turns the [n] characters that are left of a base64 string,
    once whitespace and padding are gone, into [3n/4] bytes (rounded down);
    it succeeds exactly when [n] is not 1 modulo 4 and each of these
    characters is in the base64 alphabet, and fails with an
    [InvalidCharacterError] otherwise. *)
Theorem decode_byte_count (base64 : string) :
  (∀ bytes, decode base64 = Ok bytes →
     length bytes = 3 * length (base64_body base64) / 4)
  ∧ ((∃ bytes, decode base64 = Ok bytes) ↔
       length (base64_body base64) mod 4 ≠ 1
       ∧ Forall (fun c => is_Some (base64_value c)) (base64_body base64))
  ∧ (∀ e, decode base64 = Err e → name e = InvalidCharacterError).
Proof.
  unfold decode, atob, base64_body, mbind, result_bind.
  set (l := strip_padding _).
  destruct (Nat.eqb_spec (length l mod 4) 1) as [Hmod|Hmod].
  { split_and!; [done| |by intros e [= <-]].
    split; [by intros [? ?]|by intros [? _]]. }
  destruct (mapM base64_value l) as [sextets|] eqn:Hm.
  - split_and!.
    + intros bytes [= <-].
      rewrite length_fmap, String.list_ascii_of_string_of_list_ascii,
        length_sextets_to_chars.
      apply mapM_Some, Forall2_length in Hm. by rewrite Hm.
    + split; [intros _|by eexists].
      split; [done|]. apply (mapM_is_Some_1 base64_value). by rewrite Hm.
    + done.
  - split_and!; [done| |by intros e [= <-]].
    split; [by intros [? ?]|]. intros [_ Hall].
    apply (mapM_is_Some_2 base64_value) in Hall. rewrite Hm in Hall.
    by destruct Hall.
Qed.

(** *** [processImage] *)

Lemma prefix_split kw s : String.prefix kw s = true → ∃ post, s = kw +:+ post.
Proof.
  revert s. induction kw as [|c kw IH]; intros s H; [by exists s|].
  destruct s as [|c' s]; [done|]. cbn [String.prefix] in H.
  destruct (Ascii.ascii_dec c c') as [->|]; [|done].
  destruct (IH s H) as [post ->]. by exists post.
Qed.

Lemma prefix_shorter a b s :
  String.prefix (a +:+ b) s = true → String.prefix a s = true.
Proof.
  revert s. induction a as [|c a IH]; intros s H; [by destruct s|].
  destruct s as [|c' s]; [done|]. simpl in *.
  destruct (Ascii.ascii_dec c c'); [by apply IH|done].
Qed.

Lemma includes_split s kw :
  includes s kw = true → ∃ pre post, s = pre +:+ kw +:+ post.
Proof.
  induction s as [|c s IH]; cbn [includes]; intros H.
  - rewrite orb_false_r in H. apply prefix_split in H as [post ->]. by exists "", post.
  - apply orb_true_iff in H as [H|H].
    + apply prefix_split in H as [post ->]. by exists "", post.
    + destruct (IH H) as (pre & post & ->). by exists (String c pre), post.
Qed.

Lemma toLowerCase_split text a b :
  toLowerCase text = a +:+ b →
  ∃ ta tb, text = ta +:+ tb ∧ toLowerCase ta = a ∧ toLowerCase tb = b.
Proof.
  revert text. induction a as [|c a IH]; intros text H.
  - by exists "", text.
  - destruct text as [|c' text]; [done|]. simpl in H.
    injection H as Hc H. destruct (IH text H) as (ta & tb & -> & <- & <-).
    exists (String c' ta), tb. by rewrite <- Hc.
Qed.

(** [includes] on the lowered text is containment in any letter case. *)
Lemma includes_contains text kw :
  includes (toLowerCase text) kw = true ↔ contains_ignoring_case text kw.
Proof.
  split; [|apply GeminiSpec.includes_lowered].
  intros (pre & post & H)%includes_split.
  apply toLowerCase_split in H as (tpre & trest & -> & _ & H).
  apply toLowerCase_split in H as (tmid & tpost & -> & H & _).
  by exists tpre, tmid, tpost.
Qed.

Lemma substring_all s : String.substring 0 (String.length s) s = s.
Proof. induction s as [|c s IH]; [done|]. cbn. by rewrite IH. Qed.

Lemma strip_after_prefix pre s : strip_after pre (pre +:+ s) = Some s.
Proof.
  unfold strip_after. rewrite GeminiSpec.prefix_app. f_equal.
  induction pre as [|c pre IH]; cbn.
  - rewrite Nat.sub_0_r. apply substring_all.
  - apply IH.
Qed.

Section Results.

Variable JSON_parse : string → result ProcessedContent.

(** The ways in which [processImage] fails, each with its error. *)
Lemma processImage_error_cases env base64Image settings e :
  processImage JSON_parse env base64Image settings = Err e →
  (base64Image = None ∧ e = mkError TypeError (nullMessage env))
  ∨ ∃ image cause,
      base64Image = Some image
      ∧ e = mkError Error ("Failed to process image. " +:+ cause)
      ∧ ((API_KEY env = "" ∧ cause = missing_key_message)
         ∨ (∃ e', generateContent env (vision_request image settings) = Err e'
                  ∧ cause = message e')
         ∨ (∃ response,
              generateContent env (vision_request image settings) = Ok response
              ∧ no_text response ∧ cause = "No text returned from Gemini")
         ∨ (∃ response text e',
              generateContent env (vision_request image settings) = Ok response
              ∧ Gemini.text response = Some text
              ∧ JSON_parse text = Err e' ∧ cause = message e')).
Proof.
  unfold processImage, try_catch, mbind, result_bind, getAI, vision_request, no_text.
  intros Hres.
  destruct base64Image as [image|]; [right|left; by injection Hres as <-].
  exists image.
  destruct (bool_decide_reflect (API_KEY env = "")) as [Hkey|Hkey].
  { injection Hres as <-. eexists. split_and!; [done|done|]. by left. }
  destruct (generateContent env _) as [response|e'] eqn:Hresp.
  2:{ injection Hres as <-. eexists. split_and!; [done|done|]. right. left. by eexists. }
  destruct (Gemini.text response) as [[|c text]|] eqn:Htext.
  - injection Hres as <-. eexists. split_and!; [done|done|]. right. right. left.
    exists response. split_and!; [done|by right|done].
  - destruct (JSON_parse _) as [parsed|e'] eqn:Hparse; [done|].
    injection Hres as <-. eexists. split_and!; [done|done|]. right. right. right.
    by exists response, (String c text), e'.
  - injection Hres as <-. eexists. split_and!; [done|done|]. right. right. left.
    exists response. split_and!; [done|by left|done].
Qed.

(** Every result of [processImage] is the parsed answer of the provider to
    the stripped image and the prompt, text for text; only the audit flag
    may differ, and it is set exactly when the provider set it or the
    extracted text names a critical keyword, so the fallback never clears a
    flag. *)
Theorem processImage_result env base64Image settings data :
  processImage JSON_parse env base64Image settings = Ok data →
  ∃ image response text parsed,
    base64Image = Some image
    ∧ API_KEY env ≠ ""
    ∧ generateContent env (vision_request image settings) = Ok response
    ∧ Gemini.text response = Some text ∧ text ≠ ""
    ∧ JSON_parse text = Ok parsed
    ∧ originalText data = originalText parsed
    ∧ simplifiedText data = simplifiedText parsed
    ∧ Gemini.translatedText data = Gemini.translatedText parsed
    ∧ language data = language parsed
    ∧ confidence data = confidence parsed
    ∧ (requiresAudit data = true ↔
         requiresAudit parsed = true ∨ names_critical_keyword (originalText parsed)).
Proof.
  unfold processImage, try_catch, mbind, result_bind, getAI, vision_request.
  intros Hres.
  destruct base64Image as [image|]; [|done].
  destruct (bool_decide_reflect (API_KEY env = "")) as [Hkey|Hkey]; [done|].
  destruct (generateContent env _) as [response|] eqn:Hresp; [|done].
  destruct (Gemini.text response) as [[|c text]|] eqn:Htext; [done| |done].
  destruct (JSON_parse _) as [parsed|] eqn:Hparse; [|done].
  exists image, response, (String c text), parsed.
  destruct (existsb _ CRITICAL_KEYWORDS) eqn:Hcrit; injection Hres as <-.
  - split_and!; try done. split; [intros _|done]. right.
    apply existsb_exists in Hcrit as (kw & Hkw & Hin).
    exists kw. split; [by apply list_elem_of_In|by apply includes_contains].
  - split_and!; try done. split; [by left|]. intros [Hflag|(kw & Hkw & Hin)]; [done|].
    assert (existsb (fun kw => includes (toLowerCase (originalText parsed)) kw)
              CRITICAL_KEYWORDS = true) as Hyes; [|congruence].
    apply existsb_exists. exists kw.
    split; [by apply list_elem_of_In|by apply includes_contains].
Qed.


End Results.

(** [processImage] removes a leading data URL header of one of the four
    kinds png, jpeg, jpg and webp, so that the frame a camera capture
    delivers reaches the provider as bare base64; a string that does not
    begin with [data:image/], and a data URL of another kind, is sent as
    it is. *)
Theorem clean_base64_strips_header (payload : string) :
  (∀ kind, kind ∈ stripped_kinds →
     clean_base64 (image_header kind +:+ payload) = payload)
  ∧ (∀ settings,
       image (vision_request (image_header "jpeg" +:+ payload) settings) = Some payload)
  ∧ (String.prefix "data:image/" payload = false → clean_base64 payload = payload)
  ∧ clean_base64 (image_header "gif" +:+ payload) = image_header "gif" +:+ payload.
Proof.
  assert (∀ kind, kind ∈ stripped_kinds →
            clean_base64 (image_header kind +:+ payload) = payload) as Hstrip.
  { intros kind Hkind. unfold stripped_kinds in Hkind.
    unfold clean_base64. cbn [omap list_omap].
    repeat (apply elem_of_cons in Hkind as [->|Hkind]);
      [| | | |by apply elem_of_nil in Hkind].
    all: fold (image_header "png"); fold (image_header "jpeg");
      fold (image_header "jpg"); fold (image_header "webp").
    all: rewrite ?strip_after_prefix; try done.
    all: done. }
  split_and!; [done| | |].
  - intros settings. unfold vision_request. cbn [image]. f_equal.
    apply Hstrip. unfold stripped_kinds. set_solver.
  - intros Hno. unfold clean_base64, strip_after. cbn [omap list_omap].
    assert (∀ kind, String.prefix ("data:image/" +:+ kind +:+ ";base64,") payload = false)
      as Hnone.
    { intros kind.
      destruct (String.prefix ("data:image/" +:+ kind +:+ ";base64,") payload)
        eqn:Hp; [|done].
      apply prefix_shorter in Hp. congruence. }
    by rewrite !Hnone.
  - done.
Qed.

Lemma processImage_result_witness :
  processImage label_parse label_env (Some "") prefs = Ok flagged_label
  ∧ ∃ text parsed,
      label_parse text = Ok parsed
      ∧ originalText flagged_label = originalText parsed
      ∧ (requiresAudit flagged_label = true ↔
           requiresAudit parsed = true
           ∨ names_critical_keyword (originalText parsed)).
Proof.
  split; [reflexivity|].
  destruct (processImage_result label_parse label_env (Some "") prefs flagged_label)
    as (image & response & text & parsed & _ & _ & _ & _ & _ & Hparse & Horig
        & _ & _ & _ & _ & Hflag);
    [reflexivity|].
  exists text, parsed. split; [exact Hparse|]. split; [exact Horig|exact Hflag].
Defined.


End GeminiMore.

(** ** Reader view, continued *)

Module ReaderMore.
Import Pcm Gemini Reader Scenario Config Trace Sessions.

#[local] Arguments stopAudio : simpl never.

(** Two cards never share cached audio, and the translated card has one
    entry for each language. *)
Theorem cache_key_injective (type type' : TextType) (lang lang' : string) :
  cache_key type lang = cache_key type' lang'
  ↔ type = type' ∧ (type = translated → lang = lang').
Proof.
  split.
  - destruct type, type'; cbn; intros H; try done.
    split; [done|]. intros _. by simplify_eq.
  - intros [<- Hlang]. destruct type; [done|done|]. by rewrite Hlang.
Qed.

(** *** What the cards display *)

Lemma stopAudio_grounded p s : grounded s → grounded (stopAudio p s).
Proof.
  intros (Hload & Htrans & _).
  destruct (ReaderSpec.stopAudio_frame p s) as (Hl & _ & _ & Ht & _ & _ & _ & Hp).
  unfold grounded. rewrite Hl, Ht, Hp, ReaderSpec.stopAudio_active.
  by split_and!.
Qed.

Lemma play_failed_grounded s :
  (isTranslating s = true → AwaitTranslate ∈ pending s) →
  (∀ type, activeAudioType s = Some type →
     ∃ source, audioSourceRef s = Some source
               ∧ SourceStarted (source_id source) type (source_buffer source)
                 ∈ effects s) →
  grounded (play_failed s).
Proof.
  intros Htrans Hplay. unfold grounded, play_failed. cbn.
  split_and!; [done|done|].
  intros type Ht. destruct (Hplay type Ht) as (source & ? & ?).
  exists source. split; [done|]. set_solver.
Qed.

Lemma start_source_grounded p type buffer s :
  (isTranslating s = true → AwaitTranslate ∈ pending s) →
  (∀ type, activeAudioType s = Some type →
     ∃ source, audioSourceRef s = Some source
               ∧ SourceStarted (source_id source) type (source_buffer source)
                 ∈ effects s) →
  grounded (start_source p type buffer s).
Proof.
  intros Htrans Hplay. unfold start_source.
  destruct (start_throws p); [by apply play_failed_grounded|].
  unfold grounded. cbn. split_and!; [done|done|].
  intros ? [= <-]. eexists. split; [done|]. cbn. set_solver.
Qed.

Lemma with_context_grounded p type buffer s :
  (∀ t, loadingAudioType s = Some t →
     t = type ∨ ∃ f, f ∈ pending s ∧ frame_type f = Some t) →
  (isTranslating s = true → AwaitTranslate ∈ pending s) →
  (∀ type, activeAudioType s = Some type →
     ∃ source, audioSourceRef s = Some source
               ∧ SourceStarted (source_id source) type (source_buffer source)
                 ∈ effects s) →
  grounded (with_context p type buffer s).
Proof.
  intros Hload Htrans Hplay.
  assert (∀ s0, loadingAudioType s0 = loadingAudioType s →
                isTranslating s0 = isTranslating s →
                pending s0 = pending s →
                activeAudioType s0 = activeAudioType s →
                audioSourceRef s0 = audioSourceRef s →
                (∀ e, e ∈ effects s → e ∈ effects s0) →
                grounded (if bool_decide (audioContextRef s0 = Some suspended)
                          then suspend (AwaitResume type buffer) (log ContextResumed s0)
                          else start_source p type buffer s0)) as Hgo.
  { intros s0 Hl Ht Hp Ha Hs He.
    assert (∀ type, activeAudioType s0 = Some type →
              ∃ source, audioSourceRef s0 = Some source
                ∧ SourceStarted (source_id source) type (source_buffer source)
                  ∈ effects s0) as Hplay0.
    { rewrite Ha, Hs. intros t Hact. destruct (Hplay t Hact) as (src & ? & ?).
      exists src. auto. }
    case_bool_decide.
    - unfold grounded. cbn. rewrite Hl, Ht, Hp. split_and!.
      + intros t Hlt. destruct (Hload t Hlt) as [->|(f & Hf & Hty)].
        * exists (AwaitResume type buffer). split; [set_solver|done].
        * exists f. split; [set_solver|done].
      + intros H'. set_solver.
      + intros t Hact. destruct (Hplay0 t Hact) as (src & ? & ?).
        exists src. split; [done|]. set_solver.
    - apply start_source_grounded; [by rewrite Ht, Hp|done]. }
  unfold with_context.
  destruct (audioContextRef s) eqn:Hctx.
  - by apply Hgo.
  - destruct (new_context p); [|by apply play_failed_grounded].
    apply Hgo; try done. cbn. set_solver.
Qed.

Lemma elem_of_delete_other {A} (l : list A) k x y :
  x ∈ l → l !! k = Some y → x ∈ delete k l ∨ x = y.
Proof.
  revert k. induction l as [|z l IH]; intros k Hx Hk; [by apply elem_of_nil in Hx|].
  destruct k as [|k]; cbn in *.
  - apply elem_of_cons in Hx as [->|Hx]; [right; congruence|by left].
  - apply elem_of_cons in Hx as [->|Hx]; [left; set_solver|].
    destruct (IH k Hx Hk) as [?|?]; [left; set_solver|by right].
Qed.

Section Grounded.

Variable content : ProcessedContent.
Variable settings : UserSettings.

Lemma handlePlay_grounded p type text s :
  grounded s → grounded (handlePlay settings p type text s).
Proof.
  intros Hg. unfold handlePlay.
  case_bool_decide; [by apply stopAudio_grounded|].
  case_bool_decide; [by apply stopAudio_grounded|].
  apply (stopAudio_grounded p) in Hg. destruct Hg as (Hload & Htrans & Hplay).
  set (s1 := stopAudio p s) in *.
  cbn [currentLanguage setLoadingAudioType audioCache].
  destruct (audioCache s1 !! _).
  - apply with_context_grounded; cbn; [|done|done].
    intros t [= <-]. by left.
  - unfold grounded. cbn. split_and!.
    + intros t [= <-]. eexists.
      split; [apply elem_of_app; right; by apply list_elem_of_singleton|done].
    + set_solver.
    + intros t Hact. destruct (Hplay t Hact) as (src & ? & ?).
      exists src. split; [done|]. set_solver.
Qed.

Lemma speech_settled_grounded p k r s :
  grounded s → grounded (speech_settled p k r s).
Proof.
  intros (Hload & Htrans & Hplay). unfold speech_settled.
  destruct (pending s !! k) as [[type key| |]|] eqn:Hk; try done.
  assert (isTranslating s = true → AwaitTranslate ∈ delete k (pending s)) as Htrans'.
  { intros Ht. destruct (elem_of_delete_other _ _ _ _ (Htrans Ht) Hk); done. }
  destruct r as [buffer|e].
  - apply with_context_grounded; cbn; [|done|done].
    intros t Ht. destruct (Hload t Ht) as (f & Hf & Hty).
    destruct (elem_of_delete_other _ _ _ _ Hf Hk) as [?| ->].
    + right. by exists f.
    + left. cbn in Hty. congruence.
  - by apply play_failed_grounded.
Qed.

Lemma resume_settled_grounded p k r s :
  grounded s → grounded (resume_settled p k r s).
Proof.
  intros (Hload & Htrans & Hplay). unfold resume_settled.
  destruct (pending s !! k) as [[| type buffer |]|] eqn:Hk; try done.
  assert (isTranslating s = true → AwaitTranslate ∈ delete k (pending s)) as Htrans'.
  { intros Ht. destruct (elem_of_delete_other _ _ _ _ (Htrans Ht) Hk); done. }
  destruct r as [[]|e]; [|by apply play_failed_grounded].
  apply start_source_grounded; by case_bool_decide.
Qed.

Lemma handleLanguageChange_grounded p newLang s :
  grounded s → grounded (handleLanguageChange content p newLang s).
Proof.
  intros (Hload & Htrans & Hplay). unfold handleLanguageChange, grounded.
  destruct (ReaderSpec.stopAudio_frame p (setIsTranslating true (setCurrentLanguage newLang s)))
    as (Hl & _ & _ & Ht & _ & _ & _ & Hp).
  cbn. rewrite Hl, Hp, ReaderSpec.stopAudio_active. cbn. split_and!.
  - intros t Hlt. destruct (Hload t Hlt) as (f & ? & ?). exists f. set_solver.
  - set_solver.
  - done.
Qed.

Lemma translate_settled_grounded k r s :
  grounded s → grounded (translate_settled k r s).
Proof.
  intros (Hload & Htrans & Hplay). unfold translate_settled.
  destruct (pending s !! k) as [[| |]|] eqn:Hk; try done.
  assert (∀ s0, loadingAudioType s0 = loadingAudioType s →
                pending s0 = delete k (pending s) →
                activeAudioType s0 = activeAudioType s →
                audioSourceRef s0 = audioSourceRef s →
                effects s0 = effects s →
                grounded (setIsTranslating false s0)) as Hgo.
  { intros s0 Hl Hp Ha Hs He. unfold grounded. cbn. rewrite Hl, Hp, Ha, Hs, He.
    split_and!; [|done|done].
    intros t Hlt. destruct (Hload t Hlt) as (f & Hf & Hty).
    destruct (elem_of_delete_other _ _ _ _ Hf Hk) as [?| ->]; [by exists f|done]. }
  destruct r as [newText|e]; [|by apply Hgo].
  cbn. destruct (audioCache s !! "translated"); by apply Hgo.
Qed.

Lemma step_grounded p e s :
  grounded s → grounded (step content settings p e s).
Proof.
  intros Hg. destruct e; cbn [step].
  - destruct (_ && _); [by apply handlePlay_grounded|done].
  - destruct (mounted s); [by apply handleLanguageChange_grounded|done].
  - by apply speech_settled_grounded.
  - by apply resume_settled_grounded.
  - by apply translate_settled_grounded.
  - destruct Hg as (? & ? & ?). by split_and!.
  - case_bool_decide; [|done]. destruct Hg as (? & ? & ?). by split_and!.
  - destruct (mounted s); [|done].
    apply (stopAudio_grounded p) in Hg. unfold cleanup.
    destruct (audioContextRef (stopAudio p s)); [|done].
    destruct Hg as (? & ? & Hplay). split_and!; [done|done|].
    cbn. intros t Ht. destruct (Hplay t Ht) as (src & ? & ?). exists src. set_solver.
Qed.

Lemma run_grounded tr s :
  grounded s → grounded (run content settings tr s).
Proof.
  revert s. induction tr as [|[p e] tr IH]; intros s Hg; [done|].
  apply IH. by apply step_grounded.
Qed.

(** Throughout a session, whatever the events and the platform do, what
    the cards display has a cause: a card shows its loading state only
    while a play request of that card waits for its synthesis or for the
    context to resume, the translation spinner shows only while a
    translation is awaited, and a card shows as playing only if the source
    the view holds was started for that card. *)
Theorem indicators_have_a_cause (tr : list (Platform * event)) :
  let s := run content settings tr (init content settings) in
  (∀ type, loadingAudioType s = Some type →
     ∃ f, f ∈ pending s ∧ frame_type f = Some type)
  ∧ (isTranslating s = true → AwaitTranslate ∈ pending s)
  ∧ (∀ type, activeAudioType s = Some type →
       ∃ source, audioSourceRef s = Some source
                 ∧ SourceStarted (source_id source) type (source_buffer source)
                   ∈ effects s).
Proof.
  intros s. apply run_grounded. by split_and!.
Qed.

End Grounded.

(** *** The audio cache over a session *)

Section CacheKept.

Variable content : ProcessedContent.
Variable settings : UserSettings.

Lemma handlePlay_cache p type text s :
  audioCache (handlePlay settings p type text s) = audioCache s.
Proof.
  destruct (ReaderSpec.stopAudio_frame p s) as (_ & _ & _ & _ & _ & Hc & _).
  unfold handlePlay. repeat case_bool_decide; try done.
  cbn [currentLanguage setLoadingAudioType audioCache].
  destruct (audioCache (stopAudio p s) !! _); [|done].
  by destruct (ReaderSpec.with_context_frame p type a
                 (setLoadingAudioType (Some type) (stopAudio p s))) as (_ & -> & _).
Qed.

Lemma start_source_cache p type buffer s :
  audioCache (start_source p type buffer s) = audioCache s.
Proof. unfold start_source. by destruct (start_throws p). Qed.

(** A step leaves an entry of the cache alone unless it is the settling
    of a synthesis awaited for that very key. *)
Lemma step_cache p e s key :
  keys_inv s →
  audioCache (step content settings p e s) !! key = audioCache s !! key
  ∨ ∃ k type buffer,
      e = SpeechSettled k (Ok buffer)
      ∧ pending s !! k = Some (AwaitSpeech type key)
      ∧ audioCache (step content settings p e s) !! key = Some buffer.
Proof.
  intros [Hbare _]. destruct e as [type|newLang|k r|k r|k r| | |]; cbn [step].
  - left. destruct (_ && _); [|done]. by rewrite handlePlay_cache.
  - left. destruct (mounted s); [|done]. unfold handleLanguageChange. cbn.
    by destruct (ReaderSpec.stopAudio_frame p
                   (setIsTranslating true (setCurrentLanguage newLang s)))
      as (_ & _ & _ & _ & _ & -> & _).
  - unfold speech_settled.
    destruct (pending s !! k) as [[type cacheKey| |]|] eqn:Hk; try by left.
    destruct r as [buffer|]; [|by left].
    match goal with
    | |- context [with_context p type buffer ?s0] =>
        destruct (ReaderSpec.with_context_frame p type buffer s0) as (_ & -> & _)
    end.
    cbn. destruct (decide (cacheKey = key)) as [->|Hne].
    + right. exists k, type, buffer. by rewrite lookup_insert_eq.
    + left. by rewrite lookup_insert_ne.
  - left. unfold resume_settled.
    destruct (pending s !! k) as [[| type buffer |]|]; try done.
    destruct r as [[]|]; [|done].
    rewrite start_source_cache. by case_bool_decide.
  - left. unfold translate_settled.
    destruct (pending s !! k) as [[| |]|]; try done.
    destruct r; [|done]. cbn. by rewrite Hbare.
  - by left.
  - left. by case_bool_decide.
  - left. destruct (mounted s); [|done]. unfold cleanup.
    destruct (ReaderSpec.stopAudio_frame p s) as (_ & _ & _ & _ & _ & Hc & _).
    destruct (audioContextRef (stopAudio p s)); cbn; by rewrite Hc.
Qed.

Lemma run_cache_kept tr s key :
  keys_inv s →
  is_Some (audioCache s !! key) →
  is_Some (audioCache (run content settings tr s) !! key).
Proof.
  revert s. induction tr as [|[p e] tr IH]; intros s Hkeys Hin; [done|].
  apply IH; [by apply ReaderSpec.step_keys|].
  destruct (step_cache p e s key Hkeys) as [Heq|(k & type & buffer & _ & _ & Heq)];
    cbn; by rewrite Heq.
Qed.

Lemma init_keys : keys_inv (init content settings).
Proof. split; [done|]. intros type key Hin. by apply elem_of_nil in Hin. Qed.

(** Audio once cached for a key stays cached for as long as the session
    goes on: no event removes an entry, and the only event that changes one
    is the settling of a synthesis that was requested for that key, which
    stores its result. *)
Theorem cached_audio_is_kept (tr : list (Platform * event)) (key : string) :
  let s := run content settings tr (init content settings) in
  (∀ tr', is_Some (audioCache s !! key) →
          is_Some (audioCache (run content settings tr' s) !! key))
  ∧ (∀ p e,
       audioCache (step content settings p e s) !! key ≠ audioCache s !! key →
       ∃ k type buffer,
         e = SpeechSettled k (Ok buffer)
         ∧ pending s !! k = Some (AwaitSpeech type key)
         ∧ audioCache (step content settings p e s) !! key = Some buffer).
Proof.
  intros s.
  assert (keys_inv s) as Hkeys by apply ReaderSpec.run_keys, init_keys.
  split.
  - intros tr'. by apply run_cache_kept.
  - intros p e Hne. by destruct (step_cache p e s key Hkeys).
Qed.

End CacheKept.

(** *** Requests and user actions *)

Section Counting.

Variable content : ProcessedContent.
Variable settings : UserSettings.

(** Counting effects of a kind that playback itself never produces. *)
Variable f : effect → bool.
Hypothesis f_created : f ContextCreated = false.
Hypothesis f_resumed : f ContextResumed = false.
Hypothesis f_closed : f ContextClosed = false.
Hypothesis f_started : ∀ id type buffer, f (SourceStarted id type buffer) = false.
Hypothesis f_stopped : ∀ id, f (SourceStopped id) = false.
Hypothesis f_alerted : ∀ msg, f (Alerted msg) = false.

Lemma start_source_count p type buffer s :
  count f (effects (start_source p type buffer s)) = count f (effects s).
Proof.
  unfold start_source, play_failed. destruct (start_throws p); cbn.
  - by rewrite f_alerted.
  - by rewrite f_started.
Qed.

Lemma with_context_count p type buffer s :
  count f (effects (with_context p type buffer s)) = count f (effects s).
Proof.
  unfold with_context.
  destruct (audioContextRef s).
  - case_bool_decide; [cbn; by rewrite f_resumed|apply start_source_count].
  - destruct (new_context p); [|cbn; by rewrite f_alerted].
    case_bool_decide; [cbn; by rewrite f_resumed, f_created|].
    rewrite start_source_count. cbn. by rewrite f_created.
Qed.

Lemma handlePlay_count p type text s :
  count f (effects (handlePlay settings p type text s))
  = count f (effects s)
  ∨ count f (effects (handlePlay settings p type text s))
    = (if f (SpeechRequested text (request_language settings type (stopAudio p s)))
       then 1 else 0) + count f (effects s).
Proof.
  pose proof (ReaderSpec.stopAudio_count f p s f_stopped) as Hstop.
  unfold handlePlay. repeat case_bool_decide; try by left.
  cbn [currentLanguage setLoadingAudioType audioCache].
  destruct (audioCache (stopAudio p s) !! _).
  - left. by rewrite with_context_count.
  - right. cbn. by rewrite Hstop.
Qed.

Lemma settled_count p e s :
  is_click e = false → is_selection e = false →
  count f (effects (step content settings p e s)) = count f (effects s).
Proof.
  intros Hclick Hsel. destruct e as [| |k r|k r|k r| | |]; try done; cbn [step].
  - unfold speech_settled.
    destruct (pending s !! k) as [[type key| |]|]; try done.
    destruct r; [by rewrite with_context_count|cbn; by rewrite f_alerted].
  - unfold resume_settled.
    destruct (pending s !! k) as [[|type buffer|]|]; try done.
    destruct r as [[]|]; [|cbn; by rewrite f_alerted].
    rewrite start_source_count. by case_bool_decide.
  - unfold translate_settled.
    destruct (pending s !! k) as [[| |]|]; try done.
    destruct r; [|done]. cbn. by destruct (audioCache s !! "translated").
  - by case_bool_decide.
  - destruct (mounted s); [|done]. unfold cleanup.
    pose proof (ReaderSpec.stopAudio_count f p s f_stopped) as Hstop.
    destruct (audioContextRef (stopAudio p s)); cbn; [by rewrite f_closed|done].
Qed.

Lemma select_count p newLang s :
  count f (effects (step content settings p (SelectLanguage newLang) s))
  = (if mounted s && f (TranslationRequested (translation_source content) newLang)
     then 1 else 0) + count f (effects s).
Proof.
  cbn [step]. destruct (mounted s); [|done]. unfold handleLanguageChange.
  cbn. rewrite (ReaderSpec.stopAudio_count f) by done. done.
Qed.

End Counting.

Section Actions.

Variable content : ProcessedContent.
Variable settings : UserSettings.

Lemma step_requests p e s :
  speech_calls (step content settings p e s)
  ≤ speech_calls s + (if is_click e then 1 else 0)
  ∧ translation_calls (step content settings p e s)
    ≤ translation_calls s + (if is_selection e then 1 else 0).
Proof.
  unfold speech_calls, translation_calls.
  destruct e as [type|newLang|k r|k r|k r| | |].
  2:{ rewrite !select_count by done. cbn. rewrite andb_false_r.
      destruct (mounted s); cbn; lia. }
  2-7: rewrite !(settled_count content settings) by done; cbn; lia.
  cbn [step is_click is_selection]. destruct (_ && _); [|lia].
  split.
  - destruct (handlePlay_count settings is_speech eq_refl eq_refl
                ltac:(done) ltac:(done) ltac:(done) p type
                (card_text content type s) s) as [-> | ->]; cbn; lia.
  - destruct (handlePlay_count settings is_translation eq_refl eq_refl
                ltac:(done) ltac:(done) ltac:(done) p type
                (card_text content type s) s) as [-> | ->]; cbn; lia.
Qed.

Lemma run_requests tr s :
  speech_calls (run content settings tr s) ≤ speech_calls s + occurrences is_click tr
  ∧ translation_calls (run content settings tr s)
    ≤ translation_calls s + occurrences is_selection tr.
Proof.
  revert s. induction tr as [|[p e] tr IH]; intros s; [cbn; lia|].
  change (run content settings ((p, e) :: tr) s)
    with (run content settings tr (step content settings p e s)).
  destruct (IH (step content settings p e s)) as [IH1 IH2].
  destruct (step_requests p e s) as [H1 H2].
  cbn [occurrences snd]. lia.
Qed.

(** The view calls the speech service only from a click on a play button
    and the translation service only from a choice in the language menu: no
    settling promise, end of playback or teardown ever issues a request, and
    over a whole session there are at most as many synthesis requests as
    clicks and as many translation requests as choices. *)
Theorem requests_follow_user_actions (tr : list (Platform * event)) :
  speech_calls (run content settings tr (init content settings))
  ≤ occurrences is_click tr
  ∧ translation_calls (run content settings tr (init content settings))
    ≤ occurrences is_selection tr
  ∧ (∀ p e s, is_click e = false →
       speech_calls (step content settings p e s) = speech_calls s)
  ∧ (∀ p e s, is_selection e = false →
       translation_calls (step content settings p e s) = translation_calls s).
Proof.
  destruct (run_requests tr (init content settings)) as [H1 H2].
  split_and!; [done|done| |].
  - intros p e s He. destruct (decide (is_selection e = true)) as [Hsel|Hsel].
    + destruct e; try done. unfold speech_calls.
      rewrite select_count by done. cbn. by rewrite andb_false_r.
    + apply not_true_is_false in Hsel. unfold speech_calls.
      by rewrite (settled_count content settings).
  - intros p e s He. destruct (decide (is_click e = true)) as [Hc|Hc].
    + destruct e as [type| | | | | | |]; try done. cbn [step].
      destruct (_ && _); [|done]. unfold translation_calls.
      by destruct (handlePlay_count settings is_translation eq_refl eq_refl
                     ltac:(done) ltac:(done) ltac:(done) p type
                     (card_text content type s) s) as [-> | ->].
    + apply not_true_is_false in Hc. unfold translation_calls.
      by rewrite (settled_count content settings).
Qed.

End Actions.

(** *** Starting and stopping sources *)

Lemma count_app f l1 l2 : count f (l1 ++ l2) = count f l1 + count f l2.
Proof. induction l1 as [|e l1 IH]; cbn; [done|]. rewrite IH. lia. Qed.

Lemma with_context_prepends p type buffer s :
  ∃ later, effects (with_context p type buffer s) = later ++ effects s
           ∧ count is_stopped later = 0.
Proof.
  unfold with_context, start_source, play_failed.
  destruct (audioContextRef s).
  - case_bool_decide; [by eexists [_]|].
    destruct (start_throws p); by eexists [_].
  - destruct (new_context p); [|by eexists [_]].
    case_bool_decide; [by eexists [_; _]|].
    destruct (start_throws p); by eexists [_; _].
Qed.

Section Sources.

Variable settings : UserSettings.

(** A click on any play button while the view holds a source stops that
    source before anything else happens: the stop is the first new effect,
    no other source is stopped, and whatever the click then starts or
    requests comes after it.  A click on the card that is playing does no
    more than that: nothing is requested and nothing plays. *)
Theorem play_stops_current_source (p : Platform) (type : TextType) (text : string)
    (source : AudioBufferSourceNode) (s : View) :
  audioSourceRef s = Some source →
  stop_throws p = false →
  let s' := handlePlay settings p type text s in
  (∃ later, effects s' = later ++ SourceStopped (source_id source) :: effects s
            ∧ count is_stopped later = 0)
  ∧ sources_stopped s' = S (sources_stopped s)
  ∧ (activeAudioType s = Some type →
     effects s' = SourceStopped (source_id source) :: effects s
     ∧ activeAudioType s' = None
     ∧ audioSourceRef s' = None
     ∧ pending s' = pending s).
Proof.
  intros Hsrc Hstop s'.
  assert (effects (stopAudio p s) = SourceStopped (source_id source) :: effects s)
    as Hstopped.
  { unfold stopAudio, stop. by rewrite Hsrc, Hstop. }
  assert (∃ later, effects s' = later ++ SourceStopped (source_id source) :: effects s
                   ∧ count is_stopped later = 0) as Hlater.
  { subst s'. unfold handlePlay. rewrite <- Hstopped.
    repeat case_bool_decide; try by exists [].
    cbn [currentLanguage setLoadingAudioType audioCache].
    destruct (audioCache (stopAudio p s) !! _) as [buffer|].
    - destruct (with_context_prepends p type buffer
                  (setLoadingAudioType (Some type) (stopAudio p s)))
        as (later & -> & Hnone).
      by exists later.
    - by eexists [_]. }
  split_and!; [done| |].
  - unfold sources_stopped. destruct Hlater as (later & -> & Hnone).
    by rewrite count_app, Hnone.
  - intros Hact. subst s'. unfold handlePlay.
    rewrite (bool_decide_true _ Hact).
    destruct (ReaderSpec.stopAudio_frame p s) as (_ & _ & _ & _ & _ & _ & _ & Hp).
    by rewrite ReaderSpec.stopAudio_active, ReaderSpec.stopAudio_source.
Qed.

(** A synthesis result that arrives while the view holds a source starts
    its own source without stopping that one: [stop()] is not called, both
    have been started, and the view now refers to the new source only, so
    the next [stopAudio] stops the new source and no call of the view can
    reach the old one any more. *)
Theorem late_result_overlaps_playing_source (p : Platform) (k : nat)
    (type : TextType) (key : string) (buffer : AudioBuffer)
    (source : AudioBufferSourceNode) (s : View) :
  pending s !! k = Some (AwaitSpeech type key) →
  audioSourceRef s = Some source →
  audioContextRef s = Some running →
  start_throws p = false →
  let s' := speech_settled p k (Ok buffer) s in
  effects s' = SourceStarted (length (effects s)) type buffer :: effects s
  ∧ sources_started s' = S (sources_started s)
  ∧ sources_stopped s' = sources_stopped s
  ∧ audioSourceRef s' = Some (mkSource (length (effects s)) buffer)
  ∧ activeAudioType s' = Some type
  ∧ ∀ p', stop_throws p' = false →
      effects (stopAudio p' s') = SourceStopped (length (effects s)) :: effects s'
      ∧ audioSourceRef (stopAudio p' s') = None.
Proof.
  intros Hk Hsrc Hctx Hstart s'.
  assert (s' = setLoadingAudioType None
                 (setActiveAudioType (Some type)
                    (set_audioSourceRef (Some (mkSource (length (effects s)) buffer))
                       (log (SourceStarted (length (effects s)) type buffer)
                          (set_audioCache (<[key := buffer]> (audioCache s))
                             (set_pending (delete k (pending s)) s)))))) as ->.
  { subst s'. unfold speech_settled. rewrite Hk. unfold with_context, start_source.
    cbn. rewrite Hctx, Hstart. by rewrite bool_decide_false by (cbn; congruence). }
  split_and!; try done.
  intros p' Hstop. unfold stopAudio, stop. cbn. by rewrite Hstop.
Qed.

End Sources.

(** *** Failures of a play request *)

Section Failures.

Variable settings : UserSettings.
Variable supports : nat → Z → bool.

(** When the synthesis of a play request fails, for whatever reason
    [generateSpeech] failed, the user gets exactly one notice, the load
    ends, nothing is cached or played, and the next click on the card asks
    for the synthesis again. *)
Theorem failed_synthesis_is_not_cached (env : Env) (p p' : Platform)
    (type : TextType) (text : string) (e : error) (s : View) :
  text ≠ "" →
  activeAudioType s ≠ Some type →
  audioCache s !! cache_key type (currentLanguage s) = None →
  generateSpeech supports env text (request_language settings type s) = Err e →
  let s1 := handlePlay settings p type text s in
  let s2 := speech_settled p' (length (pending s))
              (generateSpeech supports env text (request_language settings type s)) s1 in
  effects s2 = Alerted playback_alert :: effects s1
  ∧ alerts s2 = S (alerts s)
  ∧ audioCache s2 = audioCache s
  ∧ playback s2 = IDLE
  ∧ audioSourceRef s2 = None
  ∧ pending s2 = pending s
  ∧ ∀ p'', speech_calls (handlePlay settings p'' type text s2) = S (S (speech_calls s)).
Proof.
  intros Htext Hact Hmiss Hfail s1 s2.
  destruct (ReaderSpec.stopAudio_frame p s)
    as (Hl & _ & Hlang & _ & _ & Hcache & _ & Hpend).
  assert (s1 = suspend (AwaitSpeech type (cache_key type (currentLanguage s)))
                 (log (SpeechRequested text (request_language settings type s))
                    (setLoadingAudioType (Some type) (stopAudio p s)))) as Hs1.
  { subst s1. by rewrite ReaderSpec.handlePlay_miss. }
  assert (s2 = play_failed (set_pending (pending s ++ []) s1)) as Hs2.
  { subst s2. rewrite Hfail.
    rewrite (ReaderSpec.speech_settled_at p' (Err e) s1 (pending s) [] type
               (cache_key type (currentLanguage s))); [done|].
    rewrite Hs1. cbn. by rewrite Hpend. }
  assert (speech_calls s2 = S (speech_calls s)) as Hcalls.
  { rewrite Hs2, Hs1. unfold speech_calls. cbn.
    by rewrite (ReaderSpec.stopAudio_count is_speech). }
  split_and!.
  - by rewrite Hs2.
  - rewrite Hs2, Hs1. unfold alerts. cbn.
    by rewrite (ReaderSpec.stopAudio_count is_alert).
  - by rewrite Hs2, Hs1.
  - rewrite Hs2, Hs1. unfold playback. cbn. by rewrite ReaderSpec.stopAudio_active.
  - rewrite Hs2, Hs1. cbn. apply ReaderSpec.stopAudio_source.
  - rewrite Hs2, Hs1. cbn. by rewrite app_nil_r.
  - intros p''.
    assert (activeAudioType s2 = None) as Hact2.
    { rewrite Hs2, Hs1. cbn. apply ReaderSpec.stopAudio_active. }
    assert (currentLanguage s2 = currentLanguage s) as Hlang2 by by rewrite Hs2, Hs1.
    assert (audioCache s2 = audioCache s) as Hcache2 by by rewrite Hs2, Hs1.
    rewrite ReaderSpec.handlePlay_miss;
      [|done|by rewrite Hact2|by rewrite Hlang2, Hcache2].
    unfold speech_calls in *. cbn.
    by rewrite (ReaderSpec.stopAudio_count is_speech), Hcalls.
Qed.

(** When the synthesis succeeds but the audio cannot be played, because no
    output context can be made or the source cannot be started, the user
    gets one notice and nothing plays, but the audio is cached all the
    same: the next click on the card needs no synthesis. *)
Theorem unplayable_audio_stays_cached (p p' : Platform) (type : TextType)
    (text : string) (buffer : AudioBuffer) (s : View) :
  text ≠ "" →
  activeAudioType s ≠ Some type →
  audioCache s !! cache_key type (currentLanguage s) = None →
  (audioContextRef s = None ∧ new_context p' = None)
  ∨ (audioContextRef s = Some running ∧ start_throws p' = true) →
  let s1 := handlePlay settings p type text s in
  let s2 := speech_settled p' (length (pending s)) (Ok buffer) s1 in
  effects s2 = Alerted playback_alert :: effects s1
  ∧ alerts s2 = S (alerts s)
  ∧ audioCache s2 = <[cache_key type (currentLanguage s) := buffer]> (audioCache s)
  ∧ playback s2 = IDLE
  ∧ audioSourceRef s2 = None
  ∧ sources_started s2 = sources_started s
  ∧ ∀ p'', speech_calls (handlePlay settings p'' type text s2) = S (speech_calls s).
Proof.
  intros Htext Hact Hmiss Hcase s1 s2.
  destruct (ReaderSpec.stopAudio_frame p s)
    as (Hl & _ & Hlang & _ & Hctx & Hcache & _ & Hpend).
  assert (s1 = suspend (AwaitSpeech type (cache_key type (currentLanguage s)))
                 (log (SpeechRequested text (request_language settings type s))
                    (setLoadingAudioType (Some type) (stopAudio p s)))) as Hs1.
  { subst s1. by rewrite ReaderSpec.handlePlay_miss. }
  assert (s2 = play_failed
                 (set_audioCache (<[cache_key type (currentLanguage s) := buffer]>
                                    (audioCache s1))
                    (set_pending (pending s ++ []) s1))) as Hs2.
  { subst s2.
    rewrite (ReaderSpec.speech_settled_at p' (Ok buffer) s1 (pending s) [] type
               (cache_key type (currentLanguage s)));
      [|rewrite Hs1; cbn; by rewrite Hpend].
    set (s0 := set_audioCache _ _).
    assert (audioContextRef s0 = audioContextRef s) as Hctx0.
    { subst s0. rewrite Hs1. cbn. done. }
    unfold with_context.
    destruct Hcase as [[Hnone Hnew]|[Hrun Hthrow]].
    - by rewrite Hctx0, Hnone, Hnew.
    - rewrite Hctx0, Hrun, bool_decide_false by congruence.
      unfold start_source. by rewrite Hthrow. }
  assert (speech_calls s2 = S (speech_calls s)) as Hcalls.
  { rewrite Hs2, Hs1. unfold speech_calls. cbn.
    by rewrite (ReaderSpec.stopAudio_count is_speech). }
  split_and!.
  - by rewrite Hs2.
  - rewrite Hs2, Hs1. unfold alerts. cbn.
    by rewrite (ReaderSpec.stopAudio_count is_alert).
  - rewrite Hs2, Hs1. cbn. by rewrite Hcache.
  - rewrite Hs2, Hs1. unfold playback. cbn. by rewrite ReaderSpec.stopAudio_active.
  - rewrite Hs2, Hs1. cbn. apply ReaderSpec.stopAudio_source.
  - rewrite Hs2, Hs1. unfold sources_started. cbn.
    by rewrite (ReaderSpec.stopAudio_count is_started).
  - intros p''. rewrite <- Hcalls.
    apply (ReaderSpec.cached_variant_needs_no_synthesis settings p'' type text buffer).
    rewrite Hs2, Hs1. cbn. by rewrite Hlang, Hcache, lookup_insert_eq.
Qed.

End Failures.

(** *** Changing the language *)

Lemma translate_settled_at r s l1 l2 :
  pending s = l1 ++ AwaitTranslate :: l2 →
  translate_settled (length l1) r s
  = setIsTranslating false
      match r with
      | Ok newText =>
          let s := setTranslatedText newText (set_pending (l1 ++ l2) s) in
          match audioCache s !! "translated" with
          | Some _ => set_audioCache (delete "translated" (audioCache s)) s
          | None => s
          end
      | Err _ => set_pending (l1 ++ l2) s
      end.
Proof.
  intros Hp. unfold translate_settled.
  rewrite Hp, list_lookup_middle by done.
  by rewrite delete_middle.
Qed.

Lemma translateText_cases env text targetLanguage :
  (API_KEY env = "" ∧ translateText env text targetLanguage = Err translation_failure)
  ∨ (API_KEY env ≠ ""
     ∧ ∃ e, generateContent env (translation_request text targetLanguage) = Err e
            ∧ translateText env text targetLanguage = Err translation_failure)
  ∨ (API_KEY env ≠ ""
     ∧ ∃ response,
         generateContent env (translation_request text targetLanguage) = Ok response
         ∧ translateText env text targetLanguage
           = Ok (default "" (Gemini.text response))).
Proof.
  unfold translateText, translation_request, try_catch, mbind, result_bind, getAI.
  case_bool_decide as Hkey; [by left|]. right.
  destruct (generateContent env _) as [response|e].
  - right. split; [done|]. by exists response.
  - left. split; [done|]. by exists e.
Qed.

Section Language.

Variable content : ProcessedContent.
Variable settings : UserSettings.

(** A choice in the language menu, followed through to the end of the
    translation it starts.  At once the menu shows the new language,
    playback stops, one translation of the simplified text (of the original
    text when there is none) is requested, and the translated card cannot
    be played while it is awaited.  When [translateText] settles the card
    shows the text of the answer, or nothing when the answer has no text,
    and then its button stays disabled and a click on it does nothing; when
    [translateText] fails, always with its one error and in particular when
    no key is configured, the card keeps the previous translation under the
    new language, and the user is told nothing. *)
Theorem language_change_round (env : Env) (p : Platform) (newLang : string) (s : View) :
  let s1 := handleLanguageChange content p newLang s in
  let r := translateText env (translation_source content) newLang in
  let s2 := translate_settled (length (pending s)) r s1 in
  (effects s1
   = TranslationRequested (translation_source content) newLang
       :: effects (stopAudio p s)
   ∧ currentLanguage s1 = newLang
   ∧ activeAudioType s1 = None
   ∧ audioSourceRef s1 = None
   ∧ button_disabled content translated s1 = true)
  ∧ (currentLanguage s2 = newLang
     ∧ isTranslating s2 = false
     ∧ pending s2 = pending s
     ∧ effects s2 = effects s1
     ∧ translatedText s2
       = match r with Ok newText => newText | Err _ => translatedText s end)
  ∧ (∀ e, r = Err e → e = translation_failure)
  ∧ (API_KEY env = "" → translatedText s2 = translatedText s)
  ∧ (∀ response,
       API_KEY env ≠ "" →
       generateContent env (translation_request (translation_source content) newLang)
       = Ok response →
       translatedText s2 = default "" (Gemini.text response))
  ∧ (r = Ok "" →
     button_disabled content translated s2 = true
     ∧ ∀ p', step content settings p' (Click translated) s2 = s2).
Proof.
  intros s1 r s2.
  set (s0 := stopAudio p (setIsTranslating true (setCurrentLanguage newLang s))).
  destruct (ReaderSpec.stopAudio_frame p (setIsTranslating true (setCurrentLanguage newLang s)))
    as (Hl & Htext & Hlang & Htr & Hctx & Hcache & Hm & Hpend).
  fold s0 in Hl, Htext, Hlang, Htr, Hctx, Hcache, Hm, Hpend.
  cbn in Hl, Htext, Hlang, Htr, Hctx, Hcache, Hm, Hpend.
  assert (s1 = suspend AwaitTranslate
                 (log (TranslationRequested (translation_source content) newLang) s0))
    as Hs1 by done.
  assert (effects s0 = effects (stopAudio p s)) as Heff.
  { subst s0. unfold stopAudio, stop. cbn.
    destruct (audioSourceRef s); [|done]. by destruct (stop_throws p). }
  assert (pending s1 = pending s ++ AwaitTranslate :: []) as Hp1.
  { rewrite Hs1. cbn. by rewrite Hpend. }
  assert (s2 = setIsTranslating false
                 match r with
                 | Ok newText =>
                     let s := setTranslatedText newText
                                (set_pending (pending s ++ []) s1) in
                     match audioCache s !! "translated" with
                     | Some _ => set_audioCache (delete "translated" (audioCache s)) s
                     | None => s
                     end
                 | Err _ => set_pending (pending s ++ []) s1
                 end) as Hs2.
  { subst s2. by apply translate_settled_at. }
  assert (r = translateText env (translation_source content) newLang) as Hr by done.
  clearbody s1 s2 r.
  assert (translatedText s2
          = match r with Ok newText => newText | Err _ => translatedText s end) as Hshown.
  { rewrite Hs2. destruct r as [newText|e]; cbn.
    - by destruct (audioCache _ !! "translated").
    - by rewrite Hs1. }
  split_and!.
  - rewrite Hs1. cbn. by rewrite Heff.
  - by rewrite Hs1.
  - rewrite Hs1. cbn. apply ReaderSpec.stopAudio_active.
  - rewrite Hs1. cbn. apply ReaderSpec.stopAudio_source.
  - unfold button_disabled. rewrite Hs1. cbn. rewrite Htr. by rewrite orb_true_r.
  - rewrite Hs2. destruct r; cbn; [|by rewrite Hs1].
    destruct (audioCache _ !! "translated"); by rewrite Hs1.
  - rewrite Hs2. by destruct r.
  - rewrite Hs2. destruct r; cbn; [|by rewrite app_nil_r].
    destruct (audioCache _ !! "translated"); cbn; by rewrite app_nil_r.
  - rewrite Hs2. destruct r; cbn; [|done].
    by destruct (audioCache _ !! "translated").
  - done.
  - intros e He.
    destruct (translateText_cases env (translation_source content) newLang)
      as [[_ H]|[(_ & ? & _ & H)|(_ & ? & _ & H)]]; congruence.
  - intros Hkey. rewrite Hshown.
    destruct (translateText_cases env (translation_source content) newLang)
      as [[_ H]|[(Hk & _)|(Hk & _)]]; [|done|done].
    by rewrite Hr, H.
  - intros response Hkey Hresp. rewrite Hshown.
    destruct (translateText_cases env (translation_source content) newLang)
      as [[Hk _]|[(_ & e & He & _)|(_ & response' & Hr' & H)]]; [done|congruence|].
    rewrite Hr, H. congruence.
  - intros Hempty.
    assert (button_disabled content translated s2 = true) as Hdis.
    { unfold button_disabled. cbn [card_text]. rewrite Hshown, Hempty.
      apply orb_true_r. }
    split; [done|]. intros p'. cbn [step]. rewrite Hdis. by rewrite andb_false_r.
Qed.

(** After a failed translation the translated card still plays: a click
    on it sends the text of the previous language to the speech service
    with the new language, and the audio that comes back is cached as the
    audio of the new language. *)
Theorem failed_translation_speaks_old_text (env : Env) (p p' p'' : Platform)
    (newLang : string) (e : error) (buffer : AudioBuffer) (s : View) :
  translateText env (translation_source content) newLang = Err e →
  mounted s = true →
  translatedText s ≠ "" →
  loadingAudioType s ≠ Some translated →
  audioCache s !! cache_key translated newLang = None →
  let s2 := translate_settled (length (pending s))
              (translateText env (translation_source content) newLang)
              (handleLanguageChange content p newLang s) in
  let s3 := step content settings p' (Click translated) s2 in
  let s4 := speech_settled p'' (length (pending s)) (Ok buffer) s3 in
  translatedText s2 = translatedText s
  ∧ currentLanguage s2 = newLang
  ∧ effects s3 = SpeechRequested (translatedText s) newLang :: effects s2
  ∧ pending s3 = pending s ++ [AwaitSpeech translated (cache_key translated newLang)]
  ∧ audioCache s4 !! cache_key translated newLang = Some buffer.
Proof.
  intros Hfail Hm Htext Hload Hmiss s2 s3 s4.
  set (s0 := stopAudio p (setIsTranslating true (setCurrentLanguage newLang s))).
  destruct (ReaderSpec.stopAudio_frame p (setIsTranslating true (setCurrentLanguage newLang s)))
    as (Hl & Htxt & Hlang & Htr & Hctx & Hcache & Hmo & Hpend).
  fold s0 in Hl, Htxt, Hlang, Htr, Hctx, Hcache, Hmo, Hpend.
  cbn in Hl, Htxt, Hlang, Htr, Hctx, Hcache, Hmo, Hpend.
  pose proof (ReaderSpec.stopAudio_active p
                (setIsTranslating true (setCurrentLanguage newLang s))) as Hact.
  pose proof (ReaderSpec.stopAudio_source p
                (setIsTranslating true (setCurrentLanguage newLang s))) as Hsrc.
  fold s0 in Hact, Hsrc.
  assert (s2 = setIsTranslating false
                 (set_pending (pending s ++ [])
                    (suspend AwaitTranslate
                       (log (TranslationRequested (translation_source content) newLang)
                          s0)))) as Hs2.
  { subst s2. rewrite Hfail.
    rewrite (translate_settled_at (Err e) _ (pending s) []); [done|].
    unfold handleLanguageChange. fold s0. cbn. by rewrite Hpend. }
  assert (stopAudio p' s2 = s2) as Hstop.
  { rewrite ReaderSpec.stopAudio_stopped by by rewrite Hs2.
    rewrite Hs2. unfold setActiveAudioType, setIsTranslating, set_pending, suspend, log.
    cbn. by rewrite Hact. }
  assert (s3 = suspend (AwaitSpeech translated (cache_key translated newLang))
                 (log (SpeechRequested (translatedText s) newLang)
                    (setLoadingAudioType (Some translated) s2))) as Hs3.
  { subst s3. cbn [step].
    assert (mounted s2 && negb (button_disabled content translated s2) = true) as ->.
    { unfold button_disabled. rewrite Hs2. cbn. rewrite Hmo, Hm, Hl, Htxt.
      rewrite bool_decide_false by done. by rewrite bool_decide_false. }
    assert (card_text content translated s2 = translatedText s) as ->.
    { rewrite Hs2. cbn. by rewrite Htxt. }
    rewrite ReaderSpec.handlePlay_miss.
    - rewrite Hstop. cbn. by rewrite Hs2; cbn; rewrite Hlang.
    - done.
    - rewrite Hs2. cbn. by rewrite Hact.
    - rewrite Hs2. cbn. by rewrite Hlang, Hcache. }
  split_and!.
  - rewrite Hs2. cbn. by rewrite Htxt.
  - rewrite Hs2. cbn. by rewrite Hlang.
  - by rewrite Hs3.
  - rewrite Hs3, Hs2. cbn. by rewrite app_nil_r.
  - subst s4.
    rewrite (ReaderSpec.speech_settled_at p'' (Ok buffer) s3 (pending s) [] translated
               (cache_key translated newLang)).
    2:{ rewrite Hs3, Hs2. cbn. by rewrite app_nil_r. }
    match goal with
    | |- context [with_context p'' translated buffer ?st] =>
        destruct (ReaderSpec.with_context_frame p'' translated buffer st) as (_ & -> & _)
    end.
    cbn. by rewrite lookup_insert_eq.
Qed.

End Language.

(** *** A suspended output context *)

Section Resume.

Variable settings : UserSettings.

(** When the output context is suspended, a play request with cached
    audio calls [resume()] and waits: the card keeps showing its loading
    state and no source is started yet.  Once [resume()] has settled the
    cached buffer is started and the card shows as playing; when [resume()]
    fails, or the source cannot be started, the user gets the one notice and
    nothing plays.  Either way the load is over. *)
Theorem suspended_context_is_resumed_first (p p' : Platform) (type : TextType)
    (text : string) (buffer : AudioBuffer) (s : View) :
  text ≠ "" →
  activeAudioType s ≠ Some type →
  audioCache s !! cache_key type (currentLanguage s) = Some buffer →
  audioContextRef s = Some suspended →
  let s1 := handlePlay settings p type text s in
  (effects s1 = ContextResumed :: effects (stopAudio p s)
   ∧ pending s1 = pending s ++ [AwaitResume type buffer]
   ∧ playback s1 = LOADING type
   ∧ audioSourceRef s1 = None)
  ∧ (∀ r,
       let s2 := resume_settled p' (length (pending s)) r s1 in
       pending s2 = pending s
       ∧ loadingAudioType s2 = None
       ∧ (r = Ok tt → start_throws p' = false →
          playback s2 = PLAYING type
          ∧ audioContextRef s2 = Some running
          ∧ effects s2 = SourceStarted (length (effects s1)) type buffer :: effects s1
          ∧ audioSourceRef s2 = Some (mkSource (length (effects s1)) buffer))
       ∧ ((∃ e, r = Err e) ∨ start_throws p' = true →
          playback s2 = IDLE
          ∧ effects s2 = Alerted playback_alert :: effects s1
          ∧ audioSourceRef s2 = None)).
Proof.
  intros Htext Hact Hhit Hctx s1.
  destruct (ReaderSpec.stopAudio_frame p s)
    as (Hl & _ & Hlang & _ & Hctx0 & Hcache & _ & Hpend).
  pose proof (ReaderSpec.stopAudio_active p s) as Hactive.
  pose proof (ReaderSpec.stopAudio_source p s) as Hsource.
  assert (s1 = suspend (AwaitResume type buffer)
                 (log ContextResumed
                    (setLoadingAudioType (Some type) (stopAudio p s)))) as Hs1.
  { subst s1. rewrite (ReaderSpec.handlePlay_hit settings p type text buffer) by done.
    unfold with_context. cbn. rewrite Hctx0, Hctx.
    by rewrite bool_decide_true by (cbn; congruence). }
  clearbody s1. subst s1.
  split.
  { split_and!; cbn; try done. by rewrite Hpend. }
  intros r s2.
  assert (s2 = match r with
               | Ok _ =>
                   start_source p' type buffer
                     (set_audioContextRef (Some running)
                        (set_pending (pending s)
                           (log ContextResumed
                              (setLoadingAudioType (Some type) (stopAudio p s)))))
               | Err _ =>
                   play_failed
                     (set_pending (pending s)
                        (log ContextResumed
                           (setLoadingAudioType (Some type) (stopAudio p s))))
               end) as Hs2.
  { subst s2. unfold resume_settled.
    set (s1 := suspend _ _).
    assert (pending s1 = pending s ++ [AwaitResume type buffer]) as Hp1.
    { subst s1. cbn. by rewrite Hpend. }
    rewrite !Hp1, list_lookup_middle by done.
    rewrite (delete_middle (pending s) []), app_nil_r.
    destruct r as [[]|e]; [|done].
    rewrite bool_decide_true by (subst s1; cbn; congruence). done. }
  clearbody s2. subst s2.
  split_and!.
  - destruct r; [|done]. unfold start_source. by destruct (start_throws p').
  - destruct r; [|done]. unfold start_source. by destruct (start_throws p').
  - intros -> Hstart. unfold start_source. rewrite Hstart.
    unfold playback. by cbn.
  - intros [[e ->]|Hthrow].
    + unfold playback. cbn. by rewrite Hactive, Hsource.
    + destruct r.
      * unfold start_source. rewrite Hthrow. unfold playback. cbn.
        by rewrite Hactive, Hsource.
      * unfold playback. cbn. by rewrite Hactive, Hsource.
Qed.

End Resume.

(** *** The theorems above at work *)

Lemma play_stops_current_source_witness :
  audioSourceRef playing_original = Some (mkSource 2 (tone 1))
  ∧ sources_stopped (handlePlay prefs calm simplified "Keep away" playing_original)
    = S (sources_stopped playing_original).
Proof.
  split; [by vm_compute|].
  destruct (play_stops_current_source prefs calm simplified "Keep away"
              (mkSource 2 (tone 1)) playing_original) as (_ & Hstopped & _);
    [by vm_compute..|].
  exact Hstopped.
Defined.

Lemma late_result_overlaps_playing_source_witness :
  pending replayed_meanwhile = [AwaitSpeech simplified "simplified"]
  ∧ audioSourceRef replayed_meanwhile = Some (mkSource 5 (tone 1))
  ∧ sources_started (speech_settled calm 0 (Ok (tone 2)) replayed_meanwhile)
    = S (sources_started replayed_meanwhile)
  ∧ sources_stopped (speech_settled calm 0 (Ok (tone 2)) replayed_meanwhile)
    = sources_stopped replayed_meanwhile.
Proof.
  split; [by vm_compute|]. split; [by vm_compute|].
  destruct (late_result_overlaps_playing_source calm 0 simplified "simplified"
              (tone 2) (mkSource 5 (tone 1)) replayed_meanwhile)
    as (_ & Hstarted & Hstopped & _); [by vm_compute..|].
  split; [exact Hstarted|exact Hstopped].
Defined.

Lemma failed_synthesis_is_not_cached_witness :
  alerts
    (speech_settled calm 0
       (generateSpeech required_ranges silent_env "Keep out of reach"
          (request_language prefs original (init page prefs)))
       (handlePlay prefs calm original "Keep out of reach" (init page prefs)))
  = 1.
Proof.
  destruct (failed_synthesis_is_not_cached prefs required_ranges silent_env calm calm
              original "Keep out of reach" speech_failure (init page prefs))
    as (_ & Halerts & _); [by vm_compute..|].
  exact Halerts.
Defined.

Lemma unplayable_audio_stays_cached_witness :
  audioCache
    (speech_settled mute 0 (Ok (tone 1))
       (handlePlay prefs calm original "Keep out of reach" (init page prefs)))
  = <[cache_key original (currentLanguage (init page prefs)) := tone 1]>
      (audioCache (init page prefs)).
Proof.
  destruct (unplayable_audio_stays_cached prefs calm mute original
              "Keep out of reach" (tone 1) (init page prefs))
    as (_ & _ & Hcache & _); [by vm_compute|by vm_compute|by vm_compute| |].
  - left. split; reflexivity.
  - exact Hcache.
Defined.

Lemma failed_translation_speaks_old_text_witness :
  effects
    (step page prefs calm (Click translated)
       (translate_settled 0
          (translateText failing_env (translation_source page) "French")
          (handleLanguageChange page calm "French" (init page prefs))))
  = SpeechRequested "Mantener alejado" "French"
      :: effects
           (translate_settled 0
              (translateText failing_env (translation_source page) "French")
              (handleLanguageChange page calm "French" (init page prefs))).
Proof.
  destruct (failed_translation_speaks_old_text page prefs failing_env calm calm calm
              "French" translation_failure (tone 1) (init page prefs))
    as (_ & _ & Heffects & _); [by vm_compute..|].
  exact Heffects.
Defined.

Lemma suspended_context_is_resumed_first_witness :
  audioContextRef suspended_after_play = Some suspended
  ∧ playback (handlePlay prefs calm original "Keep out of reach" suspended_after_play)
    = LOADING original
  ∧ playback
      (resume_settled calm 0 (Ok tt)
         (handlePlay prefs calm original "Keep out of reach" suspended_after_play))
    = PLAYING original.
Proof.
  split; [by vm_compute|].
  destruct (suspended_context_is_resumed_first prefs calm calm original
              "Keep out of reach" (tone 1) suspended_after_play)
    as ((_ & _ & Hloading & _) & Hsettled); [by vm_compute..|].
  split; [exact Hloading|].
  destruct (Hsettled (Ok tt)) as (_ & _ & Hplays & _).
  destruct (Hplays eq_refl eq_refl) as (Hplaying & _).
  exact Hplaying.
Defined.

End ReaderMore.

(** ** Application shell *)

Module AppMore.
Import Gemini Config App Scenario.

Section Capture.

Variable JSON_parse : string → result ProcessedContent.

(** A call of [handleCapture], followed through to the end of
    [processImage].  While the image is processed the progress screen
    shows.  On success the reader view shows the result, with the settings
    [App] holds by then.  On failure the camera view is back and what was
    read before is kept; the notice is the message of the failure: for an
    image that is a string the fixed prefix of [processImage] followed by
    the cause, and for the [null] of a failed file read the text of the
    engine's [TypeError], the fallback text of [handleCapture] standing in
    only if that text is empty.  The button of the camera calls the
    [handleCapture] of the render on screen, so the image is processed with
    the settings in force; the end of a file read calls the one of the
    render in which the file was chosen, so the image is processed with the
    settings of that moment even when others have been saved since. *)
Theorem capture_outcome (env : Env) (render_settings : UserSettings)
    (imageSrc : option string) (s : State) :
  let s1 := handleCapture render_settings imageSrc s in
  let r := processImage JSON_parse env imageSrc render_settings in
  let s2 := capture_settled (length (captures s)) r s1 in
  screen s1 = Processing
  ∧ captures s2 = captures s
  ∧ settings s2 = settings s
  ∧ (∀ data, r = Ok data →
       is_Some imageSrc
       ∧ screen s2 = Reader data (settings s)
       ∧ errorText s2 = None)
  ∧ (∀ err, r = Err err →
       content s2 = content s
       ∧ ((imageSrc = None
           ∧ name err = TypeError
           ∧ screen s2
             = Camera (Some (if bool_decide (nullMessage env = "")
                             then "Failed to process image"
                             else nullMessage env)))
          ∨ (∃ image cause,
               imageSrc = Some image
               ∧ message err = "Failed to process image. " +:+ cause
               ∧ screen s2 = Camera (Some ("Failed to process image. " +:+ cause)))))
  ∧ (∀ frame, appState s ≠ AUTH →
       step (Capture frame) s = handleCapture (settings s) (Some frame) s)
  ∧ (∀ newSettings result,
       appState s = HOME →
       let s' := handleSettingsUpdate newSettings (step ChooseFile s) in
       captures (step (FileLoaded (length (reads s)) result) s')
       = captures s ++ [(result, settings s)]
       ∧ settings (step (FileLoaded (length (reads s)) result) s') = newSettings).
Proof.
  intros s1 r s2.
  assert (captures s1 !! length (captures s) = Some (imageSrc, render_settings)) as Hk.
  { subst s1. cbn. by rewrite list_lookup_middle. }
  assert (delete (length (captures s)) (captures s1) = captures s) as Hdel.
  { subst s1. cbn. rewrite (delete_middle (captures s) []). apply app_nil_r. }
  split_and!.
  - done.
  - subst s2. unfold capture_settled. rewrite Hk. by destruct r.
  - subst s2. unfold capture_settled. rewrite Hk. by destruct r.
  - intros data Hr. subst s2. unfold capture_settled. rewrite Hk, Hr.
    split; [|done]. subst r. by destruct imageSrc.
  - intros err Hr. subst s2. unfold capture_settled. rewrite Hk, Hr.
    split; [done|].
    apply GeminiMore.processImage_error_cases in Hr
      as [[-> ->]|(image & cause & -> & -> & _)].
    + left. split_and!; [done|done|]. unfold screen. cbn.
      case_bool_decide; [done|]. by destruct (nullMessage env).
    + right. by exists image, cause.
  - intros frame Hauth. cbn [step]. by rewrite bool_decide_false.
  - intros newSettings result Hhome s'. subst s'. cbn [step].
    rewrite (bool_decide_true _ Hhome). unfold file_loaded. cbn.
    rewrite list_lookup_middle by done. done.
Qed.

End Capture.

Lemma step_app_inv e s : app_inv s → app_inv (step e s).
Proof.
  intros Hinv. pose proof Hinv as (Hstate & Huser & Hcapt & Hreads & Hcontent).
  destruct e as [|r|imageSrc| |k result|k r| | | | |newSettings]; cbn [step].
  - case_bool_decide; [|done]. by split_and!.
  - unfold login_settled. destruct (logins s); [done|].
    destruct r; [|by split_and!].
    unfold app_inv. cbn. split_and!; [by auto|by eauto|by eauto|by eauto|done].
  - case_bool_decide as Hauth; [done|]. unfold app_inv. cbn.
    split_and!; [by auto|by auto|by auto|by auto|done].
  - case_bool_decide as Hhome; [|done]. unfold app_inv. cbn.
    assert (is_Some (currentUser s)) by (apply Huser; congruence).
    by split_and!.
  - unfold file_loaded.
    destruct (reads s !! k) as [st|] eqn:Hk; [|done].
    assert (is_Some (currentUser s)) as Hsome.
    { apply Hreads. intros Hnil. by rewrite Hnil in Hk. }
    unfold app_inv. cbn. split_and!; [by auto|done|done|done|done].
  - unfold capture_settled.
    destruct (captures s !! k) as [[image st]|] eqn:Hk; [|done].
    assert (is_Some (currentUser s)) as Hsome.
    { apply Hcapt. intros Hnil. by rewrite Hnil in Hk. }
    destruct r; unfold app_inv; cbn; split_and!; by eauto.
  - unfold screen. destruct (appState s) eqn:Ha; try done.
    destruct (content s); [|done]. unfold app_inv. cbn.
    split_and!; [by auto| |done|done|done].
    intros _. apply Huser. congruence.
  - unfold screen. destruct (appState s) eqn:Ha; try done;
      [|by destruct (content s)].
    destruct (shown (errorText s)); [|done]. unfold app_inv. cbn.
    by rewrite Ha.
  - case_bool_decide; [|done]. by split_and!.
  - destruct (_ && _); [|done]. by split_and!.
  - destruct (_ && _); [|done]. by split_and!.
Qed.

Lemma run_app_inv tr s : app_inv s → app_inv (run tr s).
Proof.
  revert s. induction tr as [|e tr IH]; intros s Hinv; [done|].
  apply IH. by apply step_app_inv.
Qed.

(** However a session of the application goes, with or without a stored
    sign-in, whenever the reader view is due there is a result to show and
    it is shown, so the page is never blank; and wherever the sign-in
    screen is not shown a user is signed in, which holds in particular
    whenever an image is sent for processing, from the camera or from a
    file. *)
Theorem reader_has_content (tr : list event) (storedUser : option User)
    (savedSettings : UserSettings) :
  let s := run tr (start storedUser savedSettings) in
  (appState s = READING →
     ∃ c, content s = Some c ∧ screen s = Reader c (settings s))
  ∧ screen s ≠ Blank
  ∧ (appState s ≠ AUTH → is_Some (currentUser s))
  ∧ (∀ imageSrc, step (Capture imageSrc) s ≠ s → is_Some (currentUser s))
  ∧ (∀ k result, step (FileLoaded k result) s ≠ s → is_Some (currentUser s)).
Proof.
  intros s.
  assert (app_inv s) as (Hstate & Huser & Hcapt & Hreads & Hcontent).
  { apply run_app_inv. destruct storedUser; unfold app_inv; cbn.
    - split_and!; [by auto|by eauto|done|done|done].
    - split_and!; [by auto|done|done|done|done]. }
  assert (appState s = READING →
          ∃ c, content s = Some c ∧ screen s = Reader c (settings s)) as Hread.
  { intros Hr. destruct (Hcontent Hr) as [c Hc]. exists c.
    unfold screen. by rewrite Hr, Hc. }
  split_and!; [done| |done| |].
  - unfold screen. destruct Hstate as [Ha|[Ha|[Ha|Ha]]]; rewrite Ha; try done.
    destruct (Hcontent Ha) as [c ->]. done.
  - intros imageSrc Hchange. apply Huser. intros Hauth. apply Hchange.
    cbn [step]. by rewrite bool_decide_true.
  - intros k result Hchange. apply Hreads. intros Hnil. apply Hchange.
    cbn [step]. unfold file_loaded. by rewrite Hnil.
Qed.

End AppMore.

(** ** Sign-in *)

Module SignIn.
Import Gemini App Persistence.

Lemma before_at_no_at email : includes (before_at email) "@" = false.
Proof.
  induction email as [|c rest IH]; [done|]. cbn [before_at].
  destruct (Ascii.eqb_spec c "@") as [->|Hc]; [done|].
  cbn [includes]. rewrite IH, orb_false_r.
  destruct (String.prefix "@" (String c (before_at rest))) eqn:Hp; [|done].
  apply GeminiMore.prefix_split in Hp as [post Hp].
  change ("@" +:+ post) with (String "@" post) in Hp. by injection Hp.
Qed.

(** Signing in, from the form to the screen that follows.  While
    [opusLogin] is awaited the form is busy and shows no message.  An email
    that contains [error] is refused with the one message of [opusLogin],
    shown on the sign-in screen.  Any other email is signed in with any
    password at all, under the name in front of its first [@] ([User] when
    nothing is there), and the camera view follows; unless the session
    cannot be stored, in which case [opusLogin] never settles. *)
Theorem sign_in_outcome (suffix1 suffix2 email password : string) (s : State) :
  appState s = AUTH →
  let s1 := step Submit s in
  (isLoggingIn s1 = true ∧ screen s1 = SignIn None)
  ∧ (includes email "error" = true →
     ∃ err,
       (∀ setItem_throws,
          opusLogin suffix1 suffix2 setItem_throws email password = Some (Err err))
       ∧ screen (login_settled (Err err) s1)
         = SignIn (Some "Invalid credentials provided to Opus ID.")
       ∧ isLoggingIn (login_settled (Err err) s1) = false
       ∧ currentUser (login_settled (Err err) s1) = currentUser s)
  ∧ (includes email "error" = false →
     ∃ user,
       (∀ password',
          opusLogin suffix1 suffix2 false email password' = Some (Ok user)
          ∧ opusLogin suffix1 suffix2 true email password' = None)
       ∧ (before_at email ≠ "" → username user = before_at email)
       ∧ (before_at email = "" → username user = "User")
       ∧ includes (username user) "@" = false
       ∧ screen (login_settled (Ok user) s1) = Camera None
       ∧ currentUser (login_settled (Ok user) s1) = Some user
       ∧ isLoggingIn (login_settled (Ok user) s1) = false).
Proof.
  intros Hauth s1.
  assert (s1 = handleLogin s) as ->.
  { subst s1. cbn [step]. by rewrite bool_decide_true. }
  split_and!.
  - done.
  - unfold screen. cbn. by rewrite Hauth.
  - intros Hbad. eexists. unfold opusLogin. rewrite Hbad.
    split_and!; [done| | |]; unfold screen; cbn; by rewrite ?Hauth.
  - intros Hgood. eexists. unfold opusLogin. rewrite Hgood.
    split_and!; [done| | | | | |]; cbn; try done.
    + intros Hne. by rewrite bool_decide_false.
    + intros He. by rewrite bool_decide_true.
    + case_bool_decide; [done|apply before_at_no_at].
Qed.

Lemma sign_in_outcome_witness :
  ∃ user,
    opusLogin "k3x9q2a" "7d1m5z8w0c4b6n" false "ada@example.com" "secret" = Some (Ok user)
    ∧ username user = "ada"
    ∧ screen (login_settled (Ok user) (step Submit (start None DEFAULT_SETTINGS)))
      = Camera None.
Proof.
  destruct (sign_in_outcome "k3x9q2a" "7d1m5z8w0c4b6n" "ada@example.com" "secret"
              (start None DEFAULT_SETTINGS) eq_refl)
    as (_ & _ & Hgood).
  destruct (Hgood eq_refl) as (user & Hlogin & Hname & _ & _ & Hscreen & _).
  exists user. split; [apply Hlogin|]. split; [by apply Hname|exact Hscreen].
Defined.

End SignIn.
